(** * Partial digest reconstruction: a shallow embedding of [partial_digest.py]

    Python integers are modelled as [Z]; a [dict[int, int]] as a [gmap Z Z];
    a [list[int]] as a [list Z]; the [collections.deque] of [find_solution],
    used only through [append] and [pop], as a list whose head is the top of
    the stack.  A raised exception is an explicit outcome; the [while] loop
    is run for a bounded number of turns, and the bound is proved to be
    enough ([find_solution_returns]). *)

From Stdlib Require Import ZArith Lia List Permutation Ascii String.
From stdpp Require Import gmap list sorting fin_maps.

Local Open Scope Z_scope.

(** ** Distance arithmetic *)

(** [calculate_distances]: [[abs(p - pt) for p in points]]. *)
Definition calculate_distances (pt : Z) (points : list Z) : list Z :=
  map (λ p, Z.abs (p - pt)) points.

(** ** The distance multiset *)

(** The body of the [for] loop of [can_remove_distances], running on the
    private copy [temp_counts]. *)
Fixpoint can_remove_loop (dist_to_remove : list Z) (temp_counts : gmap Z Z) : bool :=
  match dist_to_remove with
  | [] => true
  | dist :: rest =>
      match temp_counts !! dist with
      | None => false
      | Some c =>
          if c <=? 0 then false
          else can_remove_loop rest (<[dist := c - 1]> temp_counts)
      end
  end.

(** [can_remove_distances]: [temp_counts = dist_counts.copy()] followed by the
    loop.  On immutable maps the copy is the map itself. *)
Definition can_remove_distances (dist_to_remove : list Z) (dist_counts : gmap Z Z) : bool :=
  can_remove_loop dist_to_remove dist_counts.

(** [create_distance_counts]: one pass over [distances], bumping or creating
    the entry of each distance. *)
Definition count_one (counts : gmap Z Z) (dist : Z) : gmap Z Z :=
  match counts !! dist with
  | Some c => <[dist := c + 1]> counts
  | None => <[dist := 1]> counts
  end.

Definition create_distance_counts (distances : list Z) : gmap Z Z :=
  foldl count_one ∅ distances.

(** [sum(counts.values())]. *)
Definition sum_values (counts : gmap Z Z) : Z :=
  foldr Z.add 0 (map snd (map_to_list counts)).

(** [max(xs)] on a list; [None] stands for the [ValueError] of an empty
    argument. *)
Definition py_max (xs : list Z) : option Z :=
  match xs with
  | [] => None
  | x :: rest => Some (foldl Z.max x rest)
  end.

(** [max(counts.keys())]. *)
Definition max_key (counts : gmap Z Z) : option Z :=
  py_max (map fst (map_to_list counts)).

(** [for dist in distances: new_counts[dist] -= 1]; [None] stands for the
    [KeyError] of a missing key. *)
Fixpoint decrement_all (distances : list Z) (new_counts : gmap Z Z) : option (gmap Z Z) :=
  match distances with
  | [] => Some new_counts
  | dist :: rest =>
      match new_counts !! dist with
      | None => None
      | Some c => decrement_all rest (<[dist := c - 1]> new_counts)
      end
  end.

(** [{k: v for k, v in counts.items() if v > 0}]. *)
Definition drop_zero_counts (counts : gmap Z Z) : gmap Z Z :=
  filter (λ kv, 0 < kv.2) counts.

(** ** The search *)

Definition entry : Type := gmap Z Z * list Z.

Inductive exn := ValueError | KeyError.

Inductive outcome :=
  | Raised (e : exn)
  | OutOfFuel
  | Returned (r : option (list Z)).

(** [sorted(xs)]. *)
Definition sorted (xs : list Z) : list Z := merge_sort Z.le xs.

(** One "Process candidate point" block of [find_solution]: the entries it
    appends to the stack (none or one), or the exception it raises. *)
Definition process_candidate (candidate : Z) (curr_counts : gmap Z Z)
    (curr_points : list Z) : exn + list entry :=
  let distances := calculate_distances candidate curr_points in
  if can_remove_distances distances curr_counts then
    match decrement_all distances curr_counts with
    | None => inl KeyError
    | Some new_counts =>
        let new_counts := drop_zero_counts new_counts in
        if decide (candidate ∈ curr_points) then inr []
        else inr [(new_counts, curr_points ++ [candidate])]
    end
  else inr [].

Inductive step_result :=
  | Done (r : option (list Z))
  | Fail (e : exn)
  | Continue (stack : list entry).

(** The part of a turn after the success test: the maximum remaining
    distance, the two candidates, and the entries pushed, in the order in
    which [pop] will return them (the second candidate's entry first). *)
Definition expand (width : Z) (curr_counts : gmap Z Z) (curr_points : list Z)
    : exn + list entry :=
  match max_key curr_counts with
  | None => inl ValueError
  | Some max_dist =>
      let candidate1 := max_dist in
      let candidate2 := width - max_dist in
      match process_candidate candidate1 curr_counts curr_points with
      | inl e => inl e
      | inr pushed1 =>
          match process_candidate candidate2 curr_counts curr_points with
          | inl e => inl e
          | inr pushed2 => inr (pushed2 ++ pushed1)
          end
      end
  end.

(** One turn of [while stack:], the exit of the loop included. *)
Definition step (width : Z) (stack : list entry) : step_result :=
  match stack with
  | [] => Done None
  | (curr_counts, curr_points) :: rest =>
      if sum_values curr_counts =? 0 then Done (Some (sorted curr_points))
      else
        match expand width curr_counts curr_points with
        | inl e => Fail e
        | inr pushed => Continue (pushed ++ rest)
        end
  end.

Fixpoint run (fuel : nat) (width : Z) (stack : list entry) : outcome :=
  match fuel with
  | O => OutOfFuel
  | S fuel' =>
      match step width stack with
      | Done r => Returned r
      | Fail e => Raised e
      | Continue stack' => run fuel' width stack'
      end
  end.

(** The stack [find_solution] starts from. *)
Definition initial_stack (distances points : list Z) : list entry :=
  [(create_distance_counts distances, points)].

(** A number of turns that the loop cannot exceed (see [run_enough_fuel]). *)
Definition turns_bound (distances : list Z) : nat :=
  Nat.pow 2 (length distances + 2).

Definition find_solution (width : Z) (distances points : list Z) : outcome :=
  run (turns_bound distances) width (initial_stack distances points).

(** The arguments [partial_digest] passes to [find_solution] on a non-empty
    input: [width], the filtered [fragment_lengths], [starter]. *)
Definition search_arguments (fragment_lengths : list Z) : option (Z * list Z * list Z) :=
  match py_max fragment_lengths with
  | None => None
  | Some width =>
      Some (width, filter (λ d, d ≠ width) fragment_lengths, [0; width])
  end.

Definition partial_digest (fragment_lengths : list Z) : outcome :=
  match fragment_lengths with
  | [] => Returned None
  | _ =>
      match search_arguments fragment_lengths with
      | None => Raised ValueError
      | Some (width, distances, starter) => find_solution width distances starter
      end
  end.

(** [all_pairwise_distances]: the nested loops over [i < j], then the final
    sort. *)
Fixpoint pairwise_loop (sorted_points : list Z) : list Z :=
  match sorted_points with
  | [] => []
  | pi :: rest => map (λ pj, Z.abs (pj - pi)) rest ++ pairwise_loop rest
  end.

Definition all_pairwise_distances (points : list Z) : list Z :=
  sorted (pairwise_loop (sorted points)).


(** ** Multiplicities *)

(** Number of occurrences of [x] in [l], as an integer. *)
Definition occ (x : Z) (l : list Z) : Z := Z.of_nat (count_occ Z.eq_dec l x).

(** The count stored for [x], zero when [x] is not a key. *)
Definition cnt (m : gmap Z Z) (x : Z) : Z := default 0 (m !! x).

(** The invariant of the spec's distance multiset: stored counts are
    strictly positive. *)
Definition positive_counts (m : gmap Z Z) : Prop :=
  ∀ k v, m !! k = Some v → 0 < v.


(** ** States of the search *)

(** The stacks the loop goes through, from the stack it starts with. *)
Inductive reachable (width : Z) (start : list entry) : list entry → Prop :=
  | reachable_start : reachable width start start
  | reachable_step stack stack' :
      reachable width start stack →
      step width stack = Continue stack' →
      reachable width start stack'.

(** A variant for the loop: the remaining total of an entry, plus one while
    its point list is still empty. *)
Definition rank (e : entry) : nat :=
  (Z.to_nat (sum_values e.1) + match e.2 with [] => 1 | _ => 0 end)%nat.

Definition weight (e : entry) : nat := (2 ^ (rank e + 1) - 1)%nat.

Definition stack_weight (stack : list entry) : nat :=
  foldr (λ e acc, (weight e + acc)%nat) 0%nat stack.

(** The bookkeeping invariant: the distances still to place and the
    distances among the points placed add up to what the search started
    with. *)
Definition accounted (distances points0 : list Z) (e : entry) : Prop :=
  positive_counts e.1 ∧
  ∀ x, cnt e.1 x + occ x (pairwise_loop e.2)
       = occ x distances + occ x (pairwise_loop points0).

(** The distances between every point of [points] and every point of
    [others]. *)
Fixpoint cross (points others : list Z) : list Z :=
  match others with
  | [] => []
  | r :: others' => calculate_distances r points ++ cross points others'
  end.

(** An entry that the points [others] complete: the points placed and the
    points still to place are distinct and lie within the width, both ends
    are placed, and the distances still to place are exactly the ones that
    involve a point of [others]. *)
Definition extendable_with (width : Z) (e : entry) (others : list Z) : Prop :=
  NoDup (e.2 ++ others) ∧
  0 ∈ e.2 ∧ width ∈ e.2 ∧
  (∀ p, p ∈ e.2 ++ others → 0 ≤ p ≤ width) ∧
  positive_counts e.1 ∧
  ∀ x, cnt e.1 x = occ x (cross e.2 others) + occ x (pairwise_loop others).

Definition extendable (width : Z) (e : entry) : Prop :=
  ∃ others, extendable_with width e others.

(** ** Dictionaries as objects

    [can_remove_distances] receives a reference to the caller's dictionary
    and works on [dist_counts.copy()].  To account for that, dictionaries
    live in a heap, addressed by position; [copy] allocates. *)

Abbreviation heap := (list (gmap Z Z)).

(** [d.copy()]: a new object with the contents of the object at [l]. *)
Definition dict_copy (l : nat) (h : heap) : option (nat * heap) :=
  match h !! l with
  | Some d => Some (length h, h ++ [d])
  | None => None
  end.

(** The [for] loop of [can_remove_distances], writing through the reference
    [temp_counts].  [None] is a dangling reference. *)
Fixpoint can_remove_loop_obj (dist_to_remove : list Z) (temp_counts : nat) (h : heap)
    : option (bool * heap) :=
  match dist_to_remove with
  | [] => Some (true, h)
  | dist :: rest =>
      match h !! temp_counts with
      | None => None
      | Some temp =>
          match temp !! dist with
          | None => Some (false, h)
          | Some c =>
              if c <=? 0 then Some (false, h)
              else can_remove_loop_obj rest temp_counts
                     (<[temp_counts := <[dist := c - 1]> temp]> h)
          end
      end
  end.

(** [can_remove_distances] on a reference: the result and the heap it
    leaves. *)
Definition can_remove_distances_obj (dist_to_remove : list Z) (dist_counts : nat)
    (h : heap) : option (bool * heap) :=
  match dict_copy dist_counts h with
  | None => None
  | Some (temp_counts, h') => can_remove_loop_obj dist_to_remove temp_counts h'
  end.

(** ** Input parsing

    Here a Python [str] is a list of characters with code points below 256,
    and [int] has no limit on the number of digits; the parser for any
    characters and any digit limit is [extract_array_from_text] below, of
    which this one is the instance [latin1] without limit
    ([extract_latin1]).  [None] stands for the [ValueError] caught by
    [extract_array_from_input], whose result is then [None]. *)

Definition code (c : ascii) : nat := nat_of_ascii c.

(** [str.isspace] on one character: U+0009..U+000D, U+001C..U+0020, U+0085,
    U+00A0. *)
Definition is_space (c : ascii) : bool :=
  let n := code c in
  ((9 <=? n) && (n <=? 13) || (28 <=? n) && (n <=? 32) || (n =? 133) || (n =? 160))%nat.

Definition is_digit (c : ascii) : bool :=
  let n := code c in ((48 <=? n) && (n <=? 57))%nat.

Definition digit_value (c : ascii) : Z := Z.of_nat (code c) - 48.

Fixpoint lstrip (s : list ascii) : list ascii :=
  match s with
  | [] => []
  | c :: s' => if is_space c then lstrip s' else s
  end.

Definition rstrip (s : list ascii) : list ascii := rev (lstrip (rev s)).

(** [s.strip()]. *)
Definition strip (s : list ascii) : list ascii := rstrip (lstrip s).

(** [s[1:-1]]: the slice from index [1] to index [len(s) - 1], empty when
    the bounds cross. *)
Definition slice_inner (s : list ascii) : list ascii :=
  take (length s - 1 - 1) (drop 1 s).

(** [s.split(sep)] for a one-character separator. *)
Fixpoint split_on (sep : ascii) (s : list ascii) : list (list ascii) :=
  match s with
  | [] => [[]]
  | c :: s' =>
      if decide (c = sep) then [] :: split_on sep s'
      else
        match split_on sep s' with
        | [] => [[c]]
        | piece :: pieces => (c :: piece) :: pieces
        end
  end.

(** The digits of a decimal literal: single underscores are allowed between
    digits only.  [after_underscore] also holds at the start. *)
Fixpoint parse_digits (acc : Z) (after_underscore : bool) (s : list ascii) : option Z :=
  match s with
  | [] => if after_underscore then None else Some acc
  | c :: s' =>
      if decide (c = "_"%char) then
        if after_underscore then None else parse_digits acc true s'
      else if is_digit c then parse_digits (10 * acc + digit_value c) false s'
      else None
  end.

(** [int(s)] in base ten, for characters below 256 and without a digit
    limit: surrounding whitespace, an optional sign, the digits. *)
Definition py_int (s : list ascii) : option Z :=
  match strip s with
  | "+"%char :: digits => parse_digits 0 true digits
  | "-"%char :: digits => Z.opp <$> parse_digits 0 true digits
  | digits => parse_digits 0 true digits
  end.

Definition extract_array_from_input (input_str : string) : option (list Z) :=
  let content := slice_inner (strip (list_ascii_of_string input_str)) in
  match content with
  | [] => Some []
  | _ => mapM (λ x, py_int (strip x)) (split_on ","%char content)
  end.

(** What the spec calls an integer literal, said without the parser: around
    an optional sign, non-empty groups of digits separated by underscores. *)
Definition unsigned_part (s : list ascii) : list ascii :=
  match s with
  | "+"%char :: digits => digits
  | "-"%char :: digits => digits
  | _ => s
  end.

Definition digit_group (g : list ascii) : bool :=
  match g with
  | [] => false
  | _ => forallb is_digit g
  end.

Definition int_literal (s : list ascii) : bool :=
  forallb digit_group (split_on "_"%char (unsigned_part (strip s))).

(** What the spec calls a well-formed bracketed integer list: an opening
    bracket, integer literals separated by commas (or nothing), a closing
    bracket. *)
Definition bracketed_integer_list (input_str : string) : bool :=
  match strip (list_ascii_of_string input_str) with
  | "["%char :: rest =>
      match rev rest with
      | "]"%char :: ydob =>
          match rev ydob with
          | [] => true
          | body => forallb (λ x, int_literal (strip x)) (split_on ","%char body)
          end
      | _ => false
      end
  | _ => false
  end.

(** ** Printing and the command line

    [str] of an integer and of a list of integers, as the f-strings of
    [main] produce them.  (The interpreter's limit on the number of digits
    of a converted integer is not modelled.) *)

Definition digit_char (d : Z) : ascii := ascii_of_nat (48 + Z.to_nat d).

(** The decimal digits of a non-negative integer, most significant first;
    [fuel] bounds the number of digits. *)
Fixpoint digits_of (fuel : nat) (n : Z) : list ascii :=
  match fuel with
  | O => []
  | S fuel' =>
      (if n <? 10 then [] else digits_of fuel' (n / 10)) ++ [digit_char (n mod 10)]
  end.

(** The text of [str(z)] for an integer; with a digit limit, [str] returns
    it or raises ([py_str_int]). *)
Definition py_repr_int (z : Z) : list ascii :=
  if z <? 0 then "-"%char :: digits_of (S (Z.to_nat (Z.log2 (- z)))) (- z)
  else digits_of (S (Z.to_nat (Z.log2 z))) z.

(** [", ".join(items)]. *)
Fixpoint join_comma (items : list (list ascii)) : list ascii :=
  match items with
  | [] => []
  | [item] => item
  | item :: rest => item ++ ","%char :: " "%char :: join_comma rest
  end.

(** [str(xs)] for a list of integers. *)
Definition py_repr_list (xs : list Z) : list ascii :=
  "["%char :: join_comma (map py_repr_int xs) ++ ["]"%char].

Definition list_text (xs : list Z) : string := string_of_list_ascii (py_repr_list xs).

(** What [print(text)] writes. *)
Definition line (text : string) : string :=
  String.append text (String "010"%char EmptyString).

(** How a run of [main] ends, with what it wrote to standard output: an exit
    status, or an exception that nothing catches. *)
Inductive main_result :=
  | Exits (stdout : list string) (status : Z)
  | Uncaught (stdout : list string) (e : exn)
  | Unfinished.

(** The first part of [main], after [parse_args]: which source the
    distances come from.  [args_input] and [args_distances] are the parsed
    options ([None] when absent), [typed] the line [input] would read.  The
    result is the text written as a prompt and [fragment_lengths]. *)
Definition read_fragment_lengths (args_input : option string)
    (args_distances : option (list Z)) (typed : string)
    : list string * option (list Z) :=
  match args_input with
  | Some (String c s) => ([], extract_array_from_input (String c s))
  | _ =>
      match args_distances with
      | Some (d :: ds) => ([], Some (d :: ds))
      | _ =>
          (["Enter distances in format [d1, d2, d3, ...]: "%string],
           extract_array_from_input typed)
      end
  end.

(** [main], for a run in which [parse_args] returned and, where [input] is
    called, a line was read.  (At end of file [input] raises [EOFError],
    which nothing catches; [parse_args] itself may exit with status 2.) *)
Definition main (args_input : option string) (args_distances : option (list Z))
    (typed : string) : main_result :=
  let '(prompt, fragment_lengths) :=
    read_fragment_lengths args_input args_distances typed in
  match fragment_lengths with
  | None =>
      Exits (prompt ++ [line "Invalid input format. Please use format [d1, d2, d3, ...] or provide space-separated integers."]) 1
  | Some fragment_lengths =>
      match partial_digest fragment_lengths with
      | Returned (Some (p :: ps)) =>
          Exits (prompt ++
                 [line (String.append "Reconstructed points: " (list_text (p :: ps)));
                  line (String.append "Distances check: "
                          (list_text (all_pairwise_distances (p :: ps))))]) 0
      | Returned _ => Exits (prompt ++ [line "No solution found."]) 0
      | Raised e => Uncaught prompt e
      | OutOfFuel => Unfinished
      end
  end.

(** ** Input parsing on any text

    The same parser over an arbitrary character type, for a [str] with any
    code points: the tables of the interpreter ([str.isspace], the decimal
    value of a digit) are fields of a [charset], and the limit on the number
    of digits that [int] and [str] convert ([sys.get_int_max_str_digits()],
    [0] when there is none) is the parameter [max_str_digits]. *)

Record charset (A : Type) := Charset {
  blank : A → bool;
  decimal : A → option Z;
  comma : A;
  underscore : A;
  plus_sign : A;
  minus_sign : A
}.
Arguments blank {A}.
Arguments decimal {A}.
Arguments comma {A}.
Arguments underscore {A}.
Arguments plus_sign {A}.
Arguments minus_sign {A}.

(** The test of the interpreter's digit limit: it applies above 640 digits,
    when a limit is set. *)
Definition over_limit (max_str_digits digits : nat) : bool :=
  ((640 <? digits) && (0 <? max_str_digits) && (max_str_digits <? digits))%nat.

Section text.
Context {A : Type} `{EqDecision A} (cs : charset A).

Fixpoint lstrip_of (s : list A) : list A :=
  match s with
  | [] => []
  | c :: s' => if blank cs c then lstrip_of s' else s
  end.

Definition rstrip_of (s : list A) : list A := rev (lstrip_of (rev s)).

(** [s.strip()]. *)
Definition strip_of (s : list A) : list A := rstrip_of (lstrip_of s).

(** [s[1:-1]]. *)
Definition slice_of (s : list A) : list A := take (length s - 1 - 1) (drop 1 s).

(** [s.split(sep)] for a one-character separator. *)
Fixpoint split_of (sep : A) (s : list A) : list (list A) :=
  match s with
  | [] => [[]]
  | c :: s' =>
      if decide (c = sep) then [] :: split_of sep s'
      else
        match split_of sep s' with
        | [] => [[c]]
        | piece :: pieces => (c :: piece) :: pieces
        end
  end.

(** The digit a character stands for inside [int]: a blank is never a
    digit. *)
Definition char_digit (c : A) : option Z :=
  if blank cs c then None else decimal cs c.

Fixpoint parse_digits_of (acc : Z) (after_underscore : bool) (s : list A) : option Z :=
  match s with
  | [] => if after_underscore then None else Some acc
  | c :: s' =>
      if decide (c = underscore cs) then
        if after_underscore then None else parse_digits_of acc true s'
      else
        match char_digit c with
        | Some d => parse_digits_of (10 * acc + d) false s'
        | None => None
        end
  end.

(** The text of [int] without its blanks and its sign. *)
Definition unsigned_of (s : list A) : list A :=
  match strip_of s with
  | [] => []
  | c :: rest =>
      if decide (c = plus_sign cs) then rest
      else if decide (c = minus_sign cs) then rest
      else c :: rest
  end.

Definition negative_of (s : list A) : bool :=
  match strip_of s with
  | [] => false
  | c :: rest =>
      if decide (c = plus_sign cs) then false
      else if decide (c = minus_sign cs) then true
      else false
  end.

(** The number of digits of a literal, underscores not counted. *)
Definition digit_count (s : list A) : nat :=
  length (filter (λ c, c ≠ underscore cs) (unsigned_of s)).

(** [int(s)] in base ten; [None] is its [ValueError], for a text that is not
    a literal or for a literal over the digit limit. *)
Definition py_int_of (max_str_digits : nat) (s : list A) : option Z :=
  match parse_digits_of 0 true (unsigned_of s) with
  | None => None
  | Some v =>
      if over_limit max_str_digits (digit_count s) then None
      else Some (if negative_of s then - v else v)
  end.

(** [extract_array_from_input] on any text. *)
Definition extract_array_from_text (max_str_digits : nat) (input_str : list A)
    : option (list Z) :=
  let content := slice_of (strip_of input_str) in
  match content with
  | [] => Some []
  | _ => mapM (λ x, py_int_of max_str_digits (strip_of x)) (split_of (comma cs) content)
  end.

(** An integer literal, said without the parser: around an optional sign,
    non-empty groups of decimal digits separated by underscores. *)
Definition digit_group_of (g : list A) : bool :=
  match g with
  | [] => false
  | _ => forallb (λ c, bool_decide (is_Some (char_digit c))) g
  end.

Definition int_literal_of (s : list A) : bool :=
  forallb digit_group_of (split_of (underscore cs) (unsigned_of s)).

(** A literal that [int] converts: within the digit limit. *)
Definition readable_of (max_str_digits : nat) (s : list A) : bool :=
  int_literal_of s && negb (over_limit max_str_digits (digit_count s)).

End text.

(** The characters with code points below 256. *)
Definition latin1 : charset ascii :=
  {| blank := is_space;
     decimal := λ c, if is_digit c then Some (digit_value c) else None;
     comma := ","%char;
     underscore := "_"%char;
     plus_sign := "+"%char;
     minus_sign := "-"%char |}.

(** [str(z)] under the digit limit; [None] is its [ValueError]. *)
Definition py_str_int (max_str_digits : nat) (z : Z) : option (list ascii) :=
  let text := py_repr_int z in
  let digits := length (if z <? 0 then tail text else text) in
  if ((640 <? length text) && (0 <? max_str_digits) && (max_str_digits <? digits))%nat
  then None else Some text.

(** [str(xs)] for a list of integers, under the digit limit. *)
Definition py_str_list (max_str_digits : nat) (xs : list Z) : option (list ascii) :=
  items ← mapM (py_str_int max_str_digits) xs;
  Some ("["%char :: join_comma items ++ ["]"%char]).

(** * Properties *)

Lemma occ_nil x : occ x [] = 0.
Proof. reflexivity. Qed.

Lemma occ_cons x y l : occ x (y :: l) = (if decide (y = x) then 1 else 0) + occ x l.
Proof.
  unfold occ. simpl. destruct (Z.eq_dec y x), (decide (y = x)); try congruence; lia.
Qed.

Lemma occ_app x l1 l2 : occ x (l1 ++ l2) = occ x l1 + occ x l2.
Proof. unfold occ. rewrite count_occ_app. lia. Qed.

Lemma occ_nonneg x l : 0 ≤ occ x l.
Proof. unfold occ. lia. Qed.

Lemma occ_pos x l : 0 < occ x l ↔ x ∈ l.
Proof.
  unfold occ. rewrite list_elem_of_In, (count_occ_In Z.eq_dec). lia.
Qed.

Lemma occ_zero x l : x ∉ l → occ x l = 0.
Proof. intros H. pose proof (occ_pos x l). pose proof (occ_nonneg x l). destruct (decide (occ x l = 0)); [done|]. exfalso. apply H, H0. lia. Qed.

Lemma occ_Permutation l1 l2 : l1 ≡ₚ l2 ↔ ∀ x, occ x l1 = occ x l2.
Proof.
  rewrite (Permutation_count_occ Z.eq_dec). unfold occ.
  split; intros H x; specialize (H x); lia.
Qed.

Lemma cnt_lookup m x v : m !! x = Some v → cnt m x = v.
Proof. unfold cnt. by intros ->. Qed.

Lemma cnt_None_zero m x : m !! x = None → cnt m x = 0.
Proof. unfold cnt. by intros ->. Qed.

Lemma cnt_pos_lookup m x : positive_counts m → 0 < cnt m x → m !! x = Some (cnt m x).
Proof.
  unfold cnt. intros _. destruct (m !! x); simpl; [done | lia].
Qed.

(** ** [can_remove_distances] *)

Lemma can_remove_loop_spec batch counts :
  can_remove_loop batch counts = true ↔
  ∀ d, d ∈ batch → ∃ c, counts !! d = Some c ∧ occ d batch ≤ c.
Proof.
  revert counts. induction batch as [|d batch IH]; intros counts; simpl.
  - split; [|done]. intros _ d Hd. by apply elem_of_nil in Hd.
  - destruct (counts !! d) as [c|] eqn:Hc.
    + destruct (Z.leb_spec c 0) as [Hle|Hlt].
      * split; [done|]. intros H. destruct (H d) as (c' & Hc' & Hocc); [left|].
        rewrite occ_cons, decide_True in Hocc by done.
        pose proof (occ_nonneg d batch). simplify_eq. lia.
      * rewrite IH. split.
        -- intros H x Hx. destruct (decide (x = d)) as [->|Hne].
           ++ exists c. split; [done|]. rewrite occ_cons, decide_True by done.
              destruct (decide (d ∈ batch)) as [Hin|Hnin].
              ** destruct (H d Hin) as (c' & Hc' & Hocc).
                 rewrite lookup_insert_eq in Hc'. simplify_eq. lia.
              ** rewrite occ_zero by done. lia.
           ++ apply elem_of_cons in Hx as [?|Hx]; [done|].
              destruct (H x Hx) as (c' & Hc' & Hocc).
              rewrite lookup_insert_ne in Hc' by done.
              exists c'. split; [done|]. by rewrite occ_cons, decide_False.
        -- intros H x Hx. destruct (decide (x = d)) as [->|Hne].
           ++ exists (c - 1). rewrite lookup_insert_eq. split; [done|].
              destruct (H d) as (c' & Hc' & Hocc); [left|].
              rewrite occ_cons, decide_True in Hocc by done. simplify_eq. lia.
           ++ destruct (H x) as (c' & Hc' & Hocc); [by right|].
              rewrite occ_cons, decide_False in Hocc by done.
              exists c'. by rewrite lookup_insert_ne.
    + split; [done|]. intros H. destruct (H d) as (c' & Hc' & _); [left|]. congruence.
Qed.

(** ** [decrement_all] and the zero filter *)

Lemma decrement_all_lookup batch counts counts' :
  decrement_all batch counts = Some counts' →
  ∀ x, counts' !! x = (λ c, c - occ x batch) <$> counts !! x.
Proof.
  revert counts. induction batch as [|d batch IH]; intros counts; simpl.
  - intros [= <-] x. rewrite occ_nil. destruct (counts !! x); simpl; f_equal; lia.
  - destruct (counts !! d) as [c|] eqn:Hc; [|done].
    intros H x. rewrite (IH _ H), occ_cons.
    destruct (decide (d = x)) as [->|Hne].
    + rewrite lookup_insert_eq, Hc. simpl. f_equal. lia.
    + rewrite lookup_insert_ne by done. destruct (counts !! x); simpl; f_equal; lia.
Qed.

Lemma decrement_all_is_Some batch counts :
  (∀ d, d ∈ batch → is_Some (counts !! d)) → is_Some (decrement_all batch counts).
Proof.
  revert counts. induction batch as [|d batch IH]; intros counts H; simpl; [done|].
  destruct (H d) as [c Hc]; [left|]. rewrite Hc. apply IH.
  intros x Hx. destruct (decide (d = x)) as [->|Hne].
  - by rewrite lookup_insert_eq.
  - rewrite lookup_insert_ne by done. apply H. by right.
Qed.

Lemma can_remove_decrement batch counts :
  can_remove_distances batch counts = true → is_Some (decrement_all batch counts).
Proof.
  unfold can_remove_distances. rewrite can_remove_loop_spec. intros H.
  apply decrement_all_is_Some. intros d Hd. destruct (H d Hd) as (c & -> & _). done.
Qed.

Lemma drop_zero_lookup_Some counts x v :
  drop_zero_counts counts !! x = Some v ↔ counts !! x = Some v ∧ 0 < v.
Proof. unfold drop_zero_counts. by rewrite map_lookup_filter_Some. Qed.

Lemma drop_zero_positive counts : positive_counts (drop_zero_counts counts).
Proof. intros k v. rewrite drop_zero_lookup_Some. tauto. Qed.

Lemma cnt_drop_zero counts x :
  (∀ k v, counts !! k = Some v → 0 ≤ v) → cnt (drop_zero_counts counts) x = cnt counts x.
Proof.
  intros Hnn. unfold cnt.
  destruct (drop_zero_counts counts !! x) as [v|] eqn:Hd.
  - apply drop_zero_lookup_Some in Hd as [-> _]. done.
  - destruct (counts !! x) as [v|] eqn:Hc; [|done]. simpl.
    destruct (decide (0 < v)) as [Hpos|Hnpos].
    + assert (drop_zero_counts counts !! x = Some v) by by apply drop_zero_lookup_Some.
      congruence.
    + specialize (Hnn _ _ Hc). lia.
Qed.

(** What an accepted batch leaves behind. *)
Lemma removal_result batch counts :
  positive_counts counts →
  can_remove_distances batch counts = true →
  ∃ counts', decrement_all batch counts = Some counts' ∧
    (∀ k v, counts' !! k = Some v → 0 ≤ v) ∧
    (∀ x, cnt counts' x = cnt counts x - occ x batch) ∧
    (∀ x, cnt (drop_zero_counts counts') x = cnt counts x - occ x batch).
Proof.
  intros Hpos Hcan. destruct (can_remove_decrement _ _ Hcan) as [counts' Hdec].
  exists counts'. split; [done|].
  unfold can_remove_distances in Hcan. rewrite can_remove_loop_spec in Hcan.
  pose proof (decrement_all_lookup _ _ _ Hdec) as Hl.
  assert (Hnn : ∀ k v, counts' !! k = Some v → 0 ≤ v).
  { intros k v. rewrite Hl. destruct (counts !! k) as [c|] eqn:Hc; [|done].
    simpl. intros [= <-]. destruct (decide (k ∈ batch)) as [Hin|Hnin].
    - destruct (Hcan k Hin) as (c' & Hc' & Hocc). simplify_eq. lia.
    - rewrite occ_zero by done. specialize (Hpos _ _ Hc). lia. }
  assert (Hcnt : ∀ x, cnt counts' x = cnt counts x - occ x batch).
  { intros x. unfold cnt. rewrite Hl. destruct (counts !! x) as [c|] eqn:Hc; simpl; [done|].
    destruct (decide (x ∈ batch)) as [Hin|Hnin].
    - destruct (Hcan x Hin) as (c' & Hc' & _). congruence.
    - rewrite occ_zero by done. lia. }
  split; [done|]. split; [done|].
  intros x. rewrite cnt_drop_zero by done. apply Hcnt.
Qed.

(** ** [sum(counts.values())] *)

Lemma sum_list_Permutation (l1 l2 : list Z) :
  l1 ≡ₚ l2 → foldr Z.add 0 l1 = foldr Z.add 0 l2.
Proof. induction 1; simpl; lia. Qed.

Lemma sum_values_empty : sum_values ∅ = 0.
Proof. unfold sum_values. by rewrite map_to_list_empty. Qed.

Lemma sum_values_insert_fresh counts k v :
  counts !! k = None → sum_values (<[k := v]> counts) = v + sum_values counts.
Proof.
  intros Hk. unfold sum_values.
  rewrite (sum_list_Permutation _ (map snd ((k, v) :: map_to_list counts))); [done|].
  apply Permutation_map. by apply map_to_list_insert.
Qed.

Lemma sum_values_insert counts k c v :
  counts !! k = Some c → sum_values (<[k := v]> counts) = sum_values counts - c + v.
Proof.
  intros Hk. rewrite <- (insert_delete_eq counts k v).
  rewrite <- (insert_delete_id counts k c) at 2 by done.
  rewrite !sum_values_insert_fresh by apply lookup_delete_eq. lia.
Qed.

Lemma sum_values_decrement batch counts counts' :
  decrement_all batch counts = Some counts' →
  sum_values counts' = sum_values counts - Z.of_nat (length batch).
Proof.
  revert counts. induction batch as [|d batch IH]; intros counts; simpl length.
  - intros [= <-]. lia.
  - simpl. destruct (counts !! d) as [c|] eqn:Hc; [|done].
    intros H. rewrite (IH _ H), (sum_values_insert _ _ c) by done. lia.
Qed.

Lemma sum_values_drop_zero counts :
  (∀ k v, counts !! k = Some v → 0 ≤ v) →
  sum_values (drop_zero_counts counts) = sum_values counts.
Proof.
  unfold drop_zero_counts.
  induction counts as [|k v counts Hk IH] using map_ind; intros Hnn.
  - by rewrite map_filter_empty.
  - assert (Hv : 0 ≤ v) by (apply (Hnn k); apply lookup_insert_eq).
    assert (Hrest : ∀ k' v', counts !! k' = Some v' → 0 ≤ v').
    { intros k' v' H'. apply (Hnn k'). rewrite lookup_insert_ne; [done|]. congruence. }
    rewrite sum_values_insert_fresh by done.
    destruct (decide (0 < v)) as [Hpos|Hz].
    + rewrite map_filter_insert_True by done.
      rewrite sum_values_insert_fresh by (by rewrite map_lookup_filter_None; left).
      rewrite IH by done. done.
    + rewrite map_filter_insert_not'; [| simpl; lia | intros; congruence].
      rewrite IH by done. lia.
Qed.

Lemma sum_values_positive counts :
  positive_counts counts → counts ≠ ∅ → 0 < sum_values counts.
Proof.
  induction counts as [|k v counts Hk IH] using map_ind; intros Hpos Hne; [done|].
  rewrite sum_values_insert_fresh by done.
  assert (0 < v) by (apply (Hpos k); apply lookup_insert_eq).
  destruct (decide (counts = ∅)) as [->|Hne'].
  - rewrite sum_values_empty. lia.
  - enough (0 < sum_values counts) by lia. apply IH; [|done].
    intros k' v' H'. apply (Hpos k'). rewrite lookup_insert_ne; [done|]. congruence.
Qed.

Lemma sum_values_nonneg counts : positive_counts counts → 0 ≤ sum_values counts.
Proof.
  intros Hpos. destruct (decide (counts = ∅)) as [->|Hne].
  - by rewrite sum_values_empty.
  - pose proof (sum_values_positive _ Hpos Hne). lia.
Qed.

Lemma sum_values_zero_empty counts :
  positive_counts counts → sum_values counts = 0 → counts = ∅.
Proof.
  intros Hpos Hz. destruct (decide (counts = ∅)) as [|Hne]; [done|].
  pose proof (sum_values_positive _ Hpos Hne). lia.
Qed.

(** ** [max(counts.keys())] *)

Lemma foldl_max_ge (l : list Z) a : a ≤ foldl Z.max a l ∧ ∀ x, x ∈ l → x ≤ foldl Z.max a l.
Proof.
  revert a. induction l as [|y l IH]; intros a; simpl.
  - split; [lia|]. intros x Hx. by apply elem_of_nil in Hx.
  - destruct (IH (Z.max a y)) as [H1 H2]. split; [lia|].
    intros x [->|Hx]%elem_of_cons; [lia | by apply H2].
Qed.

Lemma foldl_max_elem (l : list Z) a : foldl Z.max a l = a ∨ foldl Z.max a l ∈ l.
Proof.
  revert a. induction l as [|y l IH]; intros a; simpl; [by left|].
  destruct (IH (Z.max a y)) as [->|Hin].
  - destruct (Z.max_spec a y) as [[_ ->]|[_ ->]]; [right; left | by left].
  - right. by right.
Qed.

Lemma py_max_spec (l : list Z) w :
  py_max l = Some w ↔ w ∈ l ∧ ∀ x, x ∈ l → x ≤ w.
Proof.
  destruct l as [|a l]; simpl.
  - split; [done|]. intros [H _]. by apply elem_of_nil in H.
  - pose proof (foldl_max_ge l a) as [H1 H2].
    pose proof (foldl_max_elem l a) as H3. split.
    + intros [= <-]. split.
      * destruct H3 as [->|?]; [left | by right].
      * intros x [->|Hx]%elem_of_cons; auto.
    + intros [Hw Hmax]. f_equal. apply Z.le_antisymm.
      * apply Hmax. destruct H3 as [->|?]; [left | by right].
      * apply elem_of_cons in Hw as [->|Hw]; auto.
Qed.

Lemma py_max_None (l : list Z) : py_max l = None ↔ l = [].
Proof. by destruct l. Qed.

Lemma max_key_spec counts w :
  max_key counts = Some w ↔ is_Some (counts !! w) ∧ ∀ k, is_Some (counts !! k) → k ≤ w.
Proof.
  unfold max_key. rewrite py_max_spec.
  assert (Hkeys : ∀ k, k ∈ map fst (map_to_list counts) ↔ is_Some (counts !! k)).
  { intros k. rewrite list_elem_of_fmap. split.
    - intros ([k' v] & -> & Hin). apply elem_of_map_to_list in Hin. by exists v.
    - intros [v Hv]. exists (k, v). split; [done|]. by apply elem_of_map_to_list. }
  rewrite Hkeys. split; intros [H1 H2]; (split; [done|]); intros k Hk; apply H2; by apply Hkeys.
Qed.

Lemma max_key_None counts : max_key counts = None ↔ counts = ∅.
Proof.
  unfold max_key. rewrite py_max_None. rewrite <- map_to_list_empty_iff.
  destruct (map_to_list counts); simpl; split; congruence.
Qed.

(** ** [create_distance_counts] *)

Lemma count_one_lookup counts d x :
  cnt (count_one counts d) x = cnt counts x + (if decide (d = x) then 1 else 0).
Proof.
  unfold count_one, cnt. destruct (counts !! d) as [c|] eqn:Hc.
  - destruct (decide (d = x)) as [->|Hne].
    + by rewrite lookup_insert_eq, Hc.
    + rewrite lookup_insert_ne by done. lia.
  - destruct (decide (d = x)) as [->|Hne].
    + by rewrite lookup_insert_eq, Hc.
    + rewrite lookup_insert_ne by done. lia.
Qed.

Lemma count_one_positive counts d :
  positive_counts counts → positive_counts (count_one counts d).
Proof.
  intros Hpos k v. unfold count_one. destruct (counts !! d) as [c|] eqn:Hc.
  - destruct (decide (d = k)) as [->|Hne].
    + rewrite lookup_insert_eq. intros [= <-]. specialize (Hpos _ _ Hc). lia.
    + rewrite lookup_insert_ne by done. apply Hpos.
  - destruct (decide (d = k)) as [->|Hne].
    + rewrite lookup_insert_eq. intros [= <-]. lia.
    + rewrite lookup_insert_ne by done. apply Hpos.
Qed.

Lemma count_one_sum counts d : sum_values (count_one counts d) = sum_values counts + 1.
Proof.
  unfold count_one. destruct (counts !! d) as [c|] eqn:Hc.
  - rewrite (sum_values_insert _ _ c) by done. lia.
  - rewrite sum_values_insert_fresh by done. lia.
Qed.

Lemma foldl_count_one distances counts :
  (positive_counts counts → positive_counts (foldl count_one counts distances)) ∧
  (∀ x, cnt (foldl count_one counts distances) x = cnt counts x + occ x distances) ∧
  sum_values (foldl count_one counts distances)
    = sum_values counts + Z.of_nat (length distances).
Proof.
  revert counts. induction distances as [|d distances IH]; intros counts.
  - simpl foldl. split; [done|]. split; [intros; rewrite occ_nil|]; simpl; lia.
  - simpl foldl. destruct (IH (count_one counts d)) as (H1 & H2 & H3).
    split; [|split].
    + intros Hpos. by apply H1, count_one_positive.
    + intros x. rewrite H2, count_one_lookup, occ_cons. lia.
    + rewrite H3, count_one_sum. simpl length. lia.
Qed.

Lemma positive_counts_empty : positive_counts ∅.
Proof. intros k v. by rewrite lookup_empty. Qed.

Lemma create_distance_counts_positive distances :
  positive_counts (create_distance_counts distances).
Proof. apply foldl_count_one, positive_counts_empty. Qed.

Lemma create_distance_counts_cnt distances x :
  cnt (create_distance_counts distances) x = occ x distances.
Proof.
  unfold create_distance_counts. destruct (foldl_count_one distances ∅) as (_ & -> & _).
  unfold cnt. by rewrite lookup_empty.
Qed.

Lemma create_distance_counts_sum distances :
  sum_values (create_distance_counts distances) = Z.of_nat (length distances).
Proof.
  unfold create_distance_counts. destruct (foldl_count_one distances ∅) as (_ & _ & ->).
  by rewrite sum_values_empty.
Qed.

(** ** One candidate, one turn *)

Lemma calculate_distances_length c points :
  length (calculate_distances c points) = length points.
Proof. unfold calculate_distances. apply length_map. Qed.

Lemma process_candidate_inr c counts points :
  ∃ pushed, process_candidate c counts points = inr pushed.
Proof.
  unfold process_candidate.
  destruct (can_remove_distances _ _) eqn:Hcan; [|by eexists].
  destruct (can_remove_decrement _ _ Hcan) as [counts' ->].
  case_decide; by eexists.
Qed.

Lemma process_candidate_pushed c counts points pushed :
  positive_counts counts →
  process_candidate c counts points = inr pushed →
  pushed = [] ∨
  ∃ new_counts,
    pushed = [(new_counts, points ++ [c])] ∧
    (c ∉ points) ∧
    can_remove_distances (calculate_distances c points) counts = true ∧
    positive_counts new_counts ∧
    (∀ x, cnt new_counts x = cnt counts x - occ x (calculate_distances c points)) ∧
    sum_values new_counts = sum_values counts - Z.of_nat (length points).
Proof.
  intros Hpos. unfold process_candidate.
  destruct (can_remove_distances _ _) eqn:Hcan; [|intros [= <-]; by left].
  destruct (removal_result _ _ Hpos Hcan) as (counts' & Hdec & Hnn & _ & Hcnt).
  rewrite Hdec. case_decide as Hin; intros [= <-]; [by left|right].
  eexists. split; [done|]. split; [done|]. split; [done|].
  split; [apply drop_zero_positive|]. split; [done|].
  rewrite sum_values_drop_zero by done.
  rewrite (sum_values_decrement _ _ _ Hdec), calculate_distances_length. done.
Qed.

Lemma expand_inr width counts points :
  counts ≠ ∅ → ∃ pushed, expand width counts points = inr pushed.
Proof.
  intros Hne. unfold expand. destruct (max_key counts) as [m|] eqn:Hm.
  - destruct (process_candidate_inr m counts points) as [p1 ->].
    destruct (process_candidate_inr (width - m) counts points) as [p2 ->].
    by eexists.
  - by apply max_key_None in Hm.
Qed.

Lemma expand_pushed width counts points pushed :
  expand width counts points = inr pushed →
  ∃ max_dist pushed1 pushed2,
    max_key counts = Some max_dist ∧
    process_candidate max_dist counts points = inr pushed1 ∧
    process_candidate (width - max_dist) counts points = inr pushed2 ∧
    pushed = pushed2 ++ pushed1.
Proof.
  unfold expand. destruct (max_key counts) as [m|]; [|done].
  destruct (process_candidate m counts points) as [|p1] eqn:H1; [done|].
  destruct (process_candidate (width - m) counts points) as [|p2] eqn:H2; [done|].
  intros [= <-]. by exists m, p1, p2.
Qed.

Lemma sum_values_nonzero_nonempty counts : sum_values counts ≠ 0 → counts ≠ ∅.
Proof. intros H ->. by rewrite sum_values_empty in H. Qed.

Lemma step_Continue width stack stack' :
  step width stack = Continue stack' →
  ∃ counts points rest pushed,
    stack = (counts, points) :: rest ∧
    sum_values counts ≠ 0 ∧
    expand width counts points = inr pushed ∧
    stack' = pushed ++ rest.
Proof.
  destruct stack as [|[counts points] rest]; simpl; [done|].
  destruct (Z.eqb_spec (sum_values counts) 0) as [|Hne]; [done|].
  destruct (expand width counts points) as [|pushed] eqn:He; [done|].
  intros [= <-]. by exists counts, points, rest, pushed.
Qed.

(** An invariant of entries that every accepted candidate preserves holds of
    every entry of every reachable stack. *)
Lemma reachable_Forall (Inv : entry → Prop) width start :
  Forall Inv start →
  (∀ c counts points pushed,
      Inv (counts, points) →
      process_candidate c counts points = inr pushed →
      Forall Inv pushed) →
  ∀ stack, reachable width start stack → Forall Inv stack.
Proof.
  intros Hstart Hpres stack Hreach. induction Hreach as [|stack stack' _ IH Hstep]; [done|].
  apply step_Continue in Hstep as (counts & points & rest & pushed & -> & _ & Hexp & ->).
  apply Forall_cons in IH as [Hhd Hrest].
  apply expand_pushed in Hexp as (m & p1 & p2 & _ & H1 & H2 & ->).
  rewrite !Forall_app. eauto.
Qed.

Lemma positive_counts_preserved c counts points pushed :
  positive_counts counts →
  process_candidate c counts points = inr pushed →
  Forall (λ e : entry, positive_counts e.1) pushed.
Proof.
  intros Hpos Hpc.
  destruct (process_candidate_pushed _ _ _ _ Hpos Hpc) as [->|(nc & -> & _ & _ & Hnc & _)].
  - constructor.
  - by repeat constructor.
Qed.

Lemma reachable_positive width distances points stack :
  reachable width (initial_stack distances points) stack →
  Forall (λ e : entry, positive_counts e.1) stack.
Proof.
  apply reachable_Forall.
  - repeat constructor. apply create_distance_counts_positive.
  - intros c counts pts pushed. apply positive_counts_preserved.
Qed.

(** ** Termination of the loop *)

Lemma weight_pos e : (0 < weight e)%nat.
Proof.
  unfold weight. pose proof (Nat.pow_nonzero 2 (rank e) ltac:(lia)).
  rewrite Nat.add_1_r, Nat.pow_succ_r'. lia.
Qed.

Lemma weight_child parent child :
  (rank child < rank parent)%nat → (2 * weight child < weight parent)%nat.
Proof.
  intros Hlt. unfold weight.
  assert (H : (2 ^ (rank child + 1) ≤ 2 ^ rank parent)%nat)
    by (apply Nat.pow_le_mono_r; lia).
  pose proof (Nat.pow_nonzero 2 (rank child) ltac:(lia)).
  rewrite (Nat.add_1_r (rank parent)), (Nat.pow_succ_r' 2 (rank parent)).
  rewrite (Nat.add_1_r (rank child)), (Nat.pow_succ_r' 2 (rank child)) in *. lia.
Qed.

Lemma stack_weight_app s1 s2 :
  stack_weight (s1 ++ s2) = (stack_weight s1 + stack_weight s2)%nat.
Proof. induction s1 as [|e s1 IH]; simpl; [done|]. rewrite IH. lia. Qed.

Lemma process_candidate_rank c counts points pushed :
  positive_counts counts →
  sum_values counts ≠ 0 →
  process_candidate c counts points = inr pushed →
  (stack_weight pushed = 0 ∨
   ∃ child, pushed = [child] ∧ rank child < rank (counts, points))%nat.
Proof.
  intros Hpos Hsum Hpc.
  destruct (process_candidate_pushed _ _ _ _ Hpos Hpc)
    as [->|(nc & -> & _ & _ & Hnc & _ & Hs)]; [by left|right].
  eexists. split; [done|]. unfold rank. simpl.
  pose proof (sum_values_nonneg _ Hpos). pose proof (sum_values_nonneg _ Hnc).
  destruct points as [|p points]; simpl in *.
  - lia.
  - destruct (points ++ [c]) eqn:E; [by destruct points|]. lia.
Qed.

Lemma expand_weight width counts points pushed :
  positive_counts counts →
  sum_values counts ≠ 0 →
  expand width counts points = inr pushed →
  (stack_weight pushed < weight (counts, points))%nat.
Proof.
  intros Hpos Hsum Hexp.
  apply expand_pushed in Hexp as (m & p1 & p2 & _ & H1 & H2 & ->).
  rewrite stack_weight_app.
  pose proof (weight_pos (counts, points)).
  destruct (process_candidate_rank _ _ _ _ Hpos Hsum H1) as [->|(c1 & -> & Hr1)];
  destruct (process_candidate_rank _ _ _ _ Hpos Hsum H2) as [->|(c2 & -> & Hr2)];
    simpl; try apply weight_child in Hr1; try apply weight_child in Hr2; lia.
Qed.

(** With more turns allowed than the weight of the stack, the loop returns. *)
Lemma run_enough_fuel width fuel stack :
  Forall (λ e : entry, positive_counts e.1) stack →
  (stack_weight stack < fuel)%nat →
  ∃ r, run fuel width stack = Returned r.
Proof.
  revert stack. induction fuel as [|fuel IH]; intros stack Hpos Hlt; [lia|].
  simpl. destruct stack as [|[counts points] rest]; simpl; [by eexists|].
  destruct (Z.eqb_spec (sum_values counts) 0) as [|Hne]; [by eexists|].
  apply Forall_cons in Hpos as [Hhd Hrest]. simpl in Hhd.
  destruct (expand_inr width counts points) as [pushed Hexp];
    [by apply sum_values_nonzero_nonempty|].
  rewrite Hexp. apply IH.
  - apply Forall_app. split; [|done].
    apply expand_pushed in Hexp as (m & p1 & p2 & _ & H1 & H2 & ->).
    apply Forall_app. split; eapply positive_counts_preserved; eauto.
  - pose proof (expand_weight _ _ _ _ Hhd Hne Hexp).
    rewrite stack_weight_app. simpl in Hlt. lia.
Qed.

Lemma initial_stack_weight distances points :
  (stack_weight (initial_stack distances points) < turns_bound distances)%nat.
Proof.
  unfold initial_stack, turns_bound, stack_weight, weight, rank. cbn [foldr fst snd].
  rewrite create_distance_counts_sum, Nat2Z.id.
  assert (H : (2 ^ (length distances + match points with [] => 1 | _ => 0 end + 1)
               ≤ 2 ^ (length distances + 2))%nat)
    by (apply Nat.pow_le_mono_r; [lia | destruct points; lia]).
  pose proof (Nat.pow_nonzero 2 (length distances + 2) ltac:(lia)).
  match goal with |- (?a - 1 + 0 < _)%nat => assert (a ≠ 0%nat) by (apply Nat.pow_nonzero; lia) end.
  lia.
Qed.

(** The result of a run does not depend on the turns left over. *)
Lemma run_more_fuel width fuel fuel' stack r :
  run fuel width stack = Returned r → (fuel ≤ fuel')%nat →
  run fuel' width stack = Returned r.
Proof.
  revert fuel' stack. induction fuel as [|fuel IH]; intros fuel' stack; [done|].
  intros Hrun Hle. destruct fuel' as [|fuel']; [lia|]. simpl in *.
  destruct (step width stack); [done..|]. apply IH; [done | lia].
Qed.

Lemma find_solution_returns width distances points :
  ∃ r, find_solution width distances points = Returned r.
Proof.
  unfold find_solution. apply run_enough_fuel.
  - apply (reachable_positive width distances points). constructor.
  - apply initial_stack_weight.
Qed.

(** Every run is a walk through reachable stacks. *)
Lemma run_reachable_Some width start fuel stack sol :
  reachable width start stack →
  run fuel width stack = Returned (Some sol) →
  ∃ counts points rest,
    reachable width start ((counts, points) :: rest) ∧
    sum_values counts = 0 ∧ sol = sorted points.
Proof.
  revert stack. induction fuel as [|fuel IH]; intros stack Hreach; [done|].
  simpl. destruct (step width stack) as [r| |stack'] eqn:Hstep; [|done|].
  - intros [= ->]. destruct stack as [|[counts points] rest]; [done|]. simpl in Hstep.
    destruct (Z.eqb_spec (sum_values counts) 0) as [Hz|Hne].
    + exists counts, points, rest. by simplify_eq.
    + by destruct (expand width counts points).
  - apply IH. by eapply reachable_step.
Qed.

(** ** Pairwise distances *)

Lemma occ_map_abs_sym x c (l : list Z) :
  occ x (map (λ p, Z.abs (p - c)) l) = occ x (map (λ p, Z.abs (c - p)) l).
Proof.
  induction l as [|y l IH]; [done|]. simpl. rewrite !occ_cons, IH.
  replace (Z.abs (c - y)) with (Z.abs (y - c)) by lia. done.
Qed.

Lemma pairwise_loop_snoc x c points :
  occ x (pairwise_loop (points ++ [c]))
  = occ x (pairwise_loop points) + occ x (calculate_distances c points).
Proof.
  unfold calculate_distances. induction points as [|p points IH]; [done|].
  cbn [app pairwise_loop map].
  rewrite map_app, !occ_app, IH, !occ_cons. cbn [map]. rewrite occ_cons, occ_nil.
  replace (Z.abs (c - p)) with (Z.abs (p - c)) by lia. lia.
Qed.

Lemma pairwise_loop_Permutation l1 l2 :
  l1 ≡ₚ l2 → pairwise_loop l1 ≡ₚ pairwise_loop l2.
Proof.
  induction 1 as [|a l1 l2 Hp IH|a b l|l1 l2 l3 _ IH1 _ IH2]; simpl.
  - done.
  - apply Permutation_app; [|done]. by apply Permutation_map.
  - apply occ_Permutation. intros x. rewrite !occ_cons, !occ_app.
    replace (Z.abs (b - a)) with (Z.abs (a - b)) by lia. lia.
  - by etrans.
Qed.

Lemma sorted_Permutation l : sorted l ≡ₚ l.
Proof. apply merge_sort_Permutation. Qed.

Lemma all_pairwise_distances_Permutation points :
  all_pairwise_distances points ≡ₚ pairwise_loop points.
Proof.
  unfold all_pairwise_distances. rewrite sorted_Permutation.
  apply pairwise_loop_Permutation, sorted_Permutation.
Qed.

(** ** What a returned solution accounts for *)

Lemma accounted_reachable width distances points stack :
  reachable width (initial_stack distances points) stack →
  Forall (accounted distances points) stack.
Proof.
  apply reachable_Forall.
  - repeat constructor; simpl.
    + apply create_distance_counts_positive.
    + intros x. by rewrite create_distance_counts_cnt.
  - intros c counts pts pushed [Hpos Hacc] Hpc. simpl in *.
    destruct (process_candidate_pushed _ _ _ _ Hpos Hpc)
      as [->|(nc & -> & _ & _ & Hnc & Hcnt & _)]; repeat constructor; simpl; [done|].
    intros x. rewrite Hcnt, pairwise_loop_snoc. specialize (Hacc x). lia.
Qed.

Lemma find_solution_sound width distances points sol :
  find_solution width distances points = Returned (Some sol) →
  all_pairwise_distances sol ≡ₚ distances ++ pairwise_loop points.
Proof.
  intros Hrun.
  apply (run_reachable_Some width (initial_stack distances points)) in Hrun
    as (counts & pts & rest & Hreach & Hsum & ->); [|constructor].
  apply accounted_reachable, Forall_cons in Hreach as [[Hpos Hacc] _]. simpl in *.
  apply sum_values_zero_empty in Hsum as ->; [|done].
  rewrite all_pairwise_distances_Permutation.
  rewrite (pairwise_loop_Permutation _ _ (sorted_Permutation pts)).
  apply occ_Permutation. intros x. specialize (Hacc x).
  rewrite occ_app. unfold cnt in Hacc. rewrite lookup_empty in Hacc. simpl in Hacc. lia.
Qed.

Lemma occ_filter_ne x w (l : list Z) :
  occ x (filter (λ d, d ≠ w) l) = if decide (x = w) then 0 else occ x l.
Proof.
  induction l as [|y l IH]; [by case_decide|].
  rewrite filter_cons. destruct (decide (y ≠ w)) as [Hne|Heq%dec_stable].
  - rewrite !occ_cons, IH. repeat case_decide; congruence || lia.
  - subst y. rewrite IH, occ_cons. repeat case_decide; congruence || lia.
Qed.

Lemma partial_digest_unfold fragment_lengths width :
  py_max fragment_lengths = Some width →
  partial_digest fragment_lengths
  = find_solution width (filter (λ d, d ≠ width) fragment_lengths) [0; width].
Proof.
  intros Hmax. unfold partial_digest, search_arguments. rewrite Hmax.
  by destruct fragment_lengths.
Qed.

(** A returned solution accounts for the input with its width counted
    once. *)
Lemma partial_digest_accounts fragment_lengths width sol :
  py_max fragment_lengths = Some width →
  partial_digest fragment_lengths = Returned (Some sol) →
  all_pairwise_distances sol
  ≡ₚ Z.abs width :: filter (λ d, d ≠ width) fragment_lengths.
Proof.
  intros Hmax. rewrite (partial_digest_unfold _ _ Hmax). intros Hsol.
  rewrite (find_solution_sound _ _ _ _ Hsol). simpl.
  rewrite Z.sub_0_r. by rewrite <- Permutation_cons_append.
Qed.

(** When the width occurs once in a list of positive distances, a returned
    solution reproduces the list. *)
Lemma partial_digest_sound_single_width fragment_lengths width sol :
  Forall (λ d, 0 < d) fragment_lengths →
  py_max fragment_lengths = Some width →
  occ width fragment_lengths = 1 →
  partial_digest fragment_lengths = Returned (Some sol) →
  all_pairwise_distances sol ≡ₚ fragment_lengths.
Proof.
  intros Hpos Hmax Hocc Hsol.
  rewrite (partial_digest_accounts _ _ _ Hmax Hsol).
  apply py_max_spec in Hmax as [Hin _].
  rewrite Forall_forall in Hpos. specialize (Hpos _ Hin).
  apply occ_Permutation. intros x. rewrite occ_cons, occ_filter_ne.
  rewrite Z.abs_eq by lia. repeat case_decide; subst; congruence || lia.
Qed.

(** ** Completeness of the search *)

Lemma elem_of_calculate_distances x c points :
  x ∈ calculate_distances c points ↔ ∃ p, p ∈ points ∧ x = Z.abs (p - c).
Proof.
  unfold calculate_distances. rewrite list_elem_of_fmap. split.
  - intros (p & -> & Hp). by exists p.
  - intros (p & Hp & ->). by exists p.
Qed.

Lemma elem_of_cross x points others :
  x ∈ cross points others ↔
  ∃ r p, r ∈ others ∧ p ∈ points ∧ x = Z.abs (p - r).
Proof.
  induction others as [|r others IH]; simpl.
  - split; [by intros ?%elem_of_nil|]. by intros (r & p & ?%elem_of_nil & _).
  - rewrite elem_of_app, IH, elem_of_calculate_distances. split.
    + intros [(p & Hp & ->)|(r' & p & Hr & Hp & ->)].
      * exists r, p. split; [left|]; done.
      * exists r', p. split; [by right|done].
    + intros (r' & p & [->|Hr]%elem_of_cons & Hp & ->).
      * left. by exists p.
      * right. by exists r', p.
Qed.

Lemma elem_of_pairwise_loop x l :
  x ∈ pairwise_loop l → ∃ a b, a ∈ l ∧ b ∈ l ∧ x = Z.abs (a - b).
Proof.
  induction l as [|a l IH]; simpl; [by intros ?%elem_of_nil|].
  rewrite elem_of_app, list_elem_of_fmap.
  intros [(b & -> & Hb)|Hx].
  - exists b, a. split; [by right|]. split; [left|done].
  - destruct (IH Hx) as (a' & b' & Ha & Hb & ->).
    exists a', b'. split; [by right|]. split; [by right|done].
Qed.

Lemma cross_Permutation points l1 l2 :
  l1 ≡ₚ l2 → cross points l1 ≡ₚ cross points l2.
Proof.
  induction 1 as [|a l1 l2 Hp IH|a b l|l1 l2 l3 _ IH1 _ IH2]; simpl.
  - done.
  - by apply Permutation_app.
  - rewrite !app_assoc. apply Permutation_app; [|done]. apply Permutation_app_comm.
  - by etrans.
Qed.

Lemma occ_cross_snoc x c points others :
  occ x (cross (points ++ [c]) others)
  = occ x (cross points others) + occ x (map (λ r, Z.abs (r - c)) others).
Proof.
  induction others as [|r others IH]; [done|].
  cbn [cross map]. unfold calculate_distances at 1. rewrite map_app.
  rewrite !occ_app, IH, occ_cons. cbn [map]. rewrite occ_cons, occ_nil.
  unfold calculate_distances.
  replace (Z.abs (c - r)) with (Z.abs (r - c)) by lia. lia.
Qed.

Lemma occ_mono_elem x (l : list Z) : x ∈ l → 1 ≤ occ x l.
Proof. intros H%occ_pos. lia. Qed.

(** Every distance recorded for a point still to place is at most the
    maximum remaining distance. *)
Lemma extendable_key_le counts x m :
  positive_counts counts →
  max_key counts = Some m →
  0 < cnt counts x → x ≤ m.
Proof.
  intros Hpos [_ Hmax]%max_key_spec Hx. apply Hmax.
  rewrite (cnt_pos_lookup _ _ Hpos Hx). done.
Qed.

(** The maximum remaining distance is explained by a point still to place
    that sits at one of the two candidate positions. *)
Lemma extendable_candidate width counts points others m :
  0 ∈ points → width ∈ points →
  (∀ p, p ∈ points ++ others → 0 ≤ p ≤ width) →
  positive_counts counts →
  (∀ x, cnt counts x = occ x (cross points others) + occ x (pairwise_loop others)) →
  max_key counts = Some m →
  m ∈ others ∨ width - m ∈ others.
Proof.
  intros H0 Hw Hrange Hpos Hcnt Hmax.
  assert (Hle : ∀ x, x ∈ cross points others → x ≤ m).
  { intros x Hx%occ_mono_elem. apply (extendable_key_le counts); [done..|].
    rewrite Hcnt. pose proof (occ_nonneg x (pairwise_loop others)). lia. }
  assert (Hnear : ∀ r, r ∈ others → r ≤ m ∧ width - r ≤ m).
  { intros r Hr. assert (0 ≤ r ≤ width) by (apply Hrange, elem_of_app; by right).
    split; apply Hle, elem_of_cross.
    - exists r, 0. repeat split; [done..|lia].
    - exists r, width. repeat split; [done..|lia]. }
  assert (Hm : 0 < cnt counts m).
  { apply max_key_spec in Hmax as [[v Hv] _].
    rewrite (cnt_lookup _ _ _ Hv). by apply (Hpos m). }
  assert (Hpair : ∃ r y, r ∈ others ∧ 0 ≤ y ≤ width ∧ m = Z.abs (y - r)).
  { rewrite Hcnt in Hm.
    destruct (decide (m ∈ cross points others)) as [Hin|Hnin].
    - apply elem_of_cross in Hin as (r & p & Hr & Hp & ->).
      exists r, p. split; [done|]. split; [|done]. apply Hrange, elem_of_app. by left.
    - rewrite (occ_zero _ _ Hnin) in Hm.
      assert (Hin : m ∈ pairwise_loop others) by (apply occ_pos; lia).
      apply elem_of_pairwise_loop in Hin as (a & b & Ha & Hb & ->).
      exists b, a. split; [done|]. split; [|done]. apply Hrange, elem_of_app. by right. }
  destruct Hpair as (r & y & Hr & Hy & Hmy).
  destruct (Hnear r Hr) as [Hr1 Hr2].
  assert (0 ≤ r ≤ width) by (apply Hrange, elem_of_app; by right).
  destruct (decide (y ≤ r)).
  - left. replace m with r by lia. done.
  - right. replace (width - m) with r by lia. done.
Qed.

(** Placing a point still to place is accepted, and the entry pushed is
    extendable again. *)
Lemma extendable_place width counts points c others :
  extendable_with width (counts, points) (c :: others) →
  ∃ new_counts,
    process_candidate c counts points = inr [(new_counts, points ++ [c])] ∧
    extendable_with width (new_counts, points ++ [c]) others.
Proof.
  intros (Hnd & H0 & Hw & Hrange & Hpos & Hcnt). cbn [fst snd cross] in *.
  assert (Hcan : can_remove_distances (calculate_distances c points) counts = true).
  { unfold can_remove_distances. apply can_remove_loop_spec. intros d Hd.
    assert (Hd' : 0 < cnt counts d).
    { rewrite Hcnt, occ_app. apply occ_mono_elem in Hd.
      pose proof (occ_nonneg d (cross points others)).
      pose proof (occ_nonneg d (pairwise_loop (c :: others))). lia. }
    exists (cnt counts d). split; [by apply cnt_pos_lookup|].
    rewrite Hcnt, occ_app.
    pose proof (occ_nonneg d (cross points others)).
    pose proof (occ_nonneg d (pairwise_loop (c :: others))). lia. }
  assert (Hc : c ∉ points).
  { intros Hin. apply NoDup_app in Hnd as (_ & Hdisj & _).
    apply (Hdisj c Hin). left. }
  destruct (process_candidate_inr c counts points) as [pushed Hpc].
  destruct (process_candidate_pushed _ _ _ _ Hpos Hpc)
    as [->|(nc & -> & _ & _ & Hnc & Hcnt' & _)].
  - exfalso. unfold process_candidate in Hpc. rewrite Hcan in Hpc.
    destruct (decrement_all _ _); [|done]. by rewrite decide_False in Hpc.
  - exists nc. split; [done|]. unfold extendable_with. cbn [fst snd].
    split_and!.
    + rewrite <- app_assoc. done.
    + apply elem_of_app. by left.
    + apply elem_of_app. by left.
    + intros p Hp. apply Hrange. by rewrite <- app_assoc in Hp.
    + done.
    + intros x. rewrite Hcnt', Hcnt, occ_cross_snoc. cbn [cross pairwise_loop].
      rewrite !occ_app. lia.
Qed.

Lemma extendable_with_Permutation width e others others' :
  others ≡ₚ others' → extendable_with width e others → extendable_with width e others'.
Proof.
  intros Hp (Hnd & H0 & Hw & Hrange & Hpos & Hcnt). unfold extendable_with. split_and!.
  - by rewrite <- Hp.
  - done.
  - done.
  - intros p Hin. apply Hrange. by rewrite Hp.
  - done.
  - intros x. rewrite Hcnt.
    pose proof (cross_Permutation e.2 _ _ Hp) as H1.
    pose proof (pairwise_loop_Permutation _ _ Hp) as H2.
    rewrite occ_Permutation in H1, H2. by rewrite H1, H2.
Qed.

Lemma extendable_place_elem width counts points c others :
  extendable_with width (counts, points) others →
  c ∈ others →
  ∃ new_counts,
    process_candidate c counts points = inr [(new_counts, points ++ [c])] ∧
    extendable width (new_counts, points ++ [c]).
Proof.
  intros Hext (l1 & l2 & ->)%list_elem_of_split.
  apply (extendable_with_Permutation _ _ _ (c :: l1 ++ l2)) in Hext;
    [|symmetry; apply Permutation_middle].
  apply extendable_place in Hext as (nc & Hpc & Hext').
  exists nc. split; [done|]. by exists (l1 ++ l2).
Qed.

(** A turn on an extendable entry pushes an extendable entry. *)
Lemma extendable_expand width counts points pushed :
  extendable width (counts, points) →
  expand width counts points = inr pushed →
  Exists (extendable width) pushed.
Proof.
  intros (others & Hext) Hexp.
  apply expand_pushed in Hexp as (m & p1 & p2 & Hmax & H1 & H2 & ->).
  pose proof Hext as (Hnd & H0 & Hw & Hrange & Hpos & Hcnt). cbn [fst snd] in *.
  apply Exists_app.
  destruct (extendable_candidate _ _ _ _ _ H0 Hw Hrange Hpos Hcnt Hmax) as [Hin|Hin];
    destruct (extendable_place_elem _ _ _ _ _ Hext Hin) as (nc & Hpc & Hext').
  - right. rewrite H1 in Hpc. injection Hpc as ->. by left.
  - left. rewrite H2 in Hpc. injection Hpc as ->. by left.
Qed.

(** The search gives up only when no entry of its stack was extendable. *)
Lemma run_None_not_extendable width fuel stack :
  run fuel width stack = Returned None →
  Forall (λ e, ¬ extendable width e) stack.
Proof.
  revert stack. induction fuel as [|fuel IH]; intros stack; [done|]. simpl.
  destruct (step width stack) as [r| |stack'] eqn:Hstep; [|done|].
  - intros [= ->]. destruct stack as [|[counts points] rest]; [constructor|].
    simpl in Hstep. destruct (sum_values counts =? 0); [done|].
    by destruct (expand width counts points).
  - intros Hrun. specialize (IH _ Hrun).
    apply step_Continue in Hstep as (counts & points & rest & pushed & -> & _ & Hexp & ->).
    apply Forall_app in IH as [Hpushed Hrest]. constructor; [|done].
    intros Hext. apply (extendable_expand _ _ _ _ Hext) in Hexp.
    apply Exists_exists in Hexp as (e & Hin & He).
    rewrite Forall_forall in Hpushed. by apply (Hpushed e).
Qed.

Lemma find_solution_complete width distances points :
  extendable width (create_distance_counts distances, points) →
  ∃ sol, find_solution width distances points = Returned (Some sol).
Proof.
  intros Hext. destruct (find_solution_returns width distances points) as [[sol|] Hr].
  - by exists sol.
  - unfold find_solution in Hr. apply run_None_not_extendable in Hr.
    by apply Forall_cons in Hr as [Hr _].
Qed.

(** ** The distances of a point set, seen from its two ends *)

Lemma cross_nil others : cross [] others = [].
Proof. induction others as [|r others IH]; [done|]. simpl. by rewrite IH. Qed.

Lemma occ_cross_ends x w others :
  occ x (cross [0; w] others)
  = occ x (map (λ r, Z.abs (r - 0)) others) + occ x (map (λ r, Z.abs (r - w)) others).
Proof.
  change [0; w] with (([] ++ [0]) ++ [w]).
  rewrite !occ_cross_snoc, cross_nil, occ_nil. lia.
Qed.

Lemma occ_pairwise_ends x w others :
  occ x (pairwise_loop (0 :: w :: others))
  = (if decide (Z.abs (w - 0) = x) then 1 else 0)
    + occ x (cross [0; w] others) + occ x (pairwise_loop others).
Proof.
  cbn [pairwise_loop map]. rewrite !occ_app, occ_cons, occ_cross_ends. lia.
Qed.

Lemma width_not_inner w others :
  (∀ r, r ∈ others → 0 < r < w) →
  (w ∉ cross [0; w] others) ∧ (w ∉ pairwise_loop others).
Proof.
  intros Hin. split.
  - intros (r & p & Hr & Hp & Heq)%elem_of_cross. specialize (Hin r Hr).
    apply elem_of_cons in Hp as [->|Hp]; [lia|].
    apply list_elem_of_singleton in Hp as ->. lia.
  - intros (a & b & Ha & Hb & Heq)%elem_of_pairwise_loop.
    pose proof (Hin a Ha). pose proof (Hin b Hb). lia.
Qed.

Section point_set.
(** A point set with ends [0] and [w] and inner points [others], in any
    order. *)
Variables (w : Z) (others points : list Z).
Hypothesis Hpoints : points ≡ₚ 0 :: w :: others.
Hypothesis Hnodup : NoDup points.
Hypothesis Hrange : ∀ p, p ∈ points → 0 ≤ p ≤ w.

Lemma inner_strict r : r ∈ others → 0 < r < w.
Proof using Hpoints Hnodup Hrange.
  intros Hr. rewrite Hpoints in Hnodup.
  apply NoDup_cons in Hnodup as [Hn0 [Hnw _]%NoDup_cons].
  assert (0 ≤ r ≤ w) by (apply Hrange; rewrite Hpoints; by do 2 right).
  assert (r ≠ 0) by (intros ->; apply Hn0; by right).
  assert (r ≠ w) by (intros ->; by apply Hnw). lia.
Qed.

Lemma width_positive : 0 < w.
Proof using Hpoints Hnodup Hrange.
  rewrite Hpoints in Hnodup. apply NoDup_cons in Hnodup as [Hn0 _].
  assert (0 ≤ w ≤ w) by (apply Hrange; rewrite Hpoints; right; left).
  assert (w ≠ 0) by (intros ->; apply Hn0; left). lia.
Qed.

Lemma occ_digest x :
  occ x (all_pairwise_distances points)
  = (if decide (x = w) then 1 else 0)
    + occ x (cross [0; w] others) + occ x (pairwise_loop others).
Proof using Hpoints Hnodup Hrange.
  pose proof (all_pairwise_distances_Permutation points) as Hp.
  rewrite (pairwise_loop_Permutation _ _ Hpoints) in Hp.
  rewrite occ_Permutation in Hp. rewrite Hp, occ_pairwise_ends.
  pose proof width_positive. rewrite Z.sub_0_r, Z.abs_eq by lia.
  repeat case_decide; congruence || lia.
Qed.

Lemma occ_digest_width : occ w (all_pairwise_distances points) = 1.
Proof using Hpoints Hnodup Hrange.
  rewrite occ_digest, decide_True by done.
  destruct (width_not_inner w others inner_strict) as [H1 H2].
  rewrite (occ_zero _ _ H1), (occ_zero _ _ H2). lia.
Qed.

Lemma digest_positive : Forall (λ d, 0 < d) (all_pairwise_distances points).
Proof using Hpoints Hnodup Hrange.
  apply Forall_forall. intros x Hx.
  rewrite all_pairwise_distances_Permutation in Hx. revert Hx.
  clear Hpoints Hrange. induction Hnodup as [|a l Ha Hnd IH]; simpl.
  - by intros ?%elem_of_nil.
  - rewrite elem_of_app, list_elem_of_fmap. intros [(b & -> & Hb)|Hx]; [|auto].
    assert (a ≠ b) by (intros ->; done). lia.
Qed.

Lemma digest_max : py_max (all_pairwise_distances points) = Some w.
Proof using Hpoints Hnodup Hrange.
  apply py_max_spec. split.
  - apply occ_pos. rewrite occ_digest_width. lia.
  - intros x Hx. rewrite all_pairwise_distances_Permutation in Hx.
    apply elem_of_pairwise_loop in Hx as (a & b & Ha & Hb & ->).
    pose proof (Hrange a Ha). pose proof (Hrange b Hb). lia.
Qed.

Lemma digest_extendable :
  extendable w
    (create_distance_counts (filter (λ d, d ≠ w) (all_pairwise_distances points)),
     [0; w]).
Proof using Hpoints Hnodup Hrange.
  exists others. unfold extendable_with. cbn [fst snd]. split_and!.
  - by rewrite <- Hpoints.
  - left.
  - right; left.
  - intros p Hp. apply Hrange. by rewrite Hpoints.
  - apply create_distance_counts_positive.
  - intros x. rewrite create_distance_counts_cnt, occ_filter_ne, occ_digest.
    case_decide as Hx; [|lia]. subst x.
    destruct (width_not_inner w others inner_strict) as [H1 H2].
    rewrite (occ_zero _ _ H1), (occ_zero _ _ H2). lia.
Qed.

Lemma digest_roundtrip :
  ∃ sol,
    partial_digest (all_pairwise_distances points) = Returned (Some sol) ∧
    all_pairwise_distances sol ≡ₚ all_pairwise_distances points.
Proof using Hpoints Hnodup Hrange.
  destruct (find_solution_complete _ _ _ digest_extendable) as [sol Hsol].
  rewrite <- (partial_digest_unfold _ _ digest_max) in Hsol.
  exists sol. split; [done|].
  by apply (partial_digest_sound_single_width _ w);
    [apply digest_positive | apply digest_max | apply occ_digest_width |].
Qed.
End point_set.

Lemma point_set_ends (points : list Z) :
  NoDup points → Forall (λ p, 0 ≤ p) points → (2 ≤ length points)%nat → 0 ∈ points →
  ∃ w others, points ≡ₚ 0 :: w :: others ∧ ∀ p, p ∈ points → 0 ≤ p ≤ w.
Proof.
  intros Hnd Hnn Hlen (rest & Hrest)%elem_of_Permutation.
  destruct rest as [|a rest]; [apply Permutation_length in Hrest; simpl in *; lia|].
  destruct (py_max (a :: rest)) as [w|] eqn:Hmax; [|done].
  apply py_max_spec in Hmax as [(others & Hothers)%elem_of_Permutation Hmax].
  exists w, others. split; [by rewrite Hrest, Hothers|].
  intros p Hp. rewrite Forall_forall in Hnn. split; [by apply Hnn|].
  rewrite Hrest in Hp. apply elem_of_cons in Hp as [->|Hp]; [|by apply Hmax].
  etrans; [apply (Hnn a)|apply Hmax]; [rewrite Hrest|]; by (right; left) || left.
Qed.

(** ** [can_remove_distances] on a reference *)

Lemma can_remove_loop_obj_spec batch (t : nat) (h : heap) temp :
  h !! t = Some temp →
  ∃ h', can_remove_loop_obj batch t h = Some (can_remove_loop batch temp, h') ∧
        length h' = length h ∧
        ∀ l, l ≠ t → h' !! l = h !! l.
Proof.
  revert h temp. induction batch as [|d batch IH]; intros h temp Ht; simpl.
  - by exists h.
  - rewrite Ht. destruct (temp !! d) as [c|]; [|by exists h].
    destruct (c <=? 0); [by exists h|].
    pose proof (lookup_lt_Some _ _ _ Ht) as Hlt.
    destruct (IH (<[t := <[d := c - 1]> temp]> h) (<[d := c - 1]> temp))
      as (h' & Hrun & Hlen & Hother); [by apply list_lookup_insert_eq|].
    exists h'. split; [done|]. split; [by rewrite Hlen, length_insert|].
    intros l Hl. rewrite (Hother l Hl). by apply list_lookup_insert_ne.
Qed.

Lemma can_remove_distances_obj_spec batch (l : nat) (h : heap) counts :
  h !! l = Some counts →
  ∃ h', can_remove_distances_obj batch l h
          = Some (can_remove_distances batch counts, h') ∧
        ∀ l', (l' < length h)%nat → h' !! l' = h !! l'.
Proof.
  intros Hl. unfold can_remove_distances_obj, dict_copy. rewrite Hl.
  destruct (can_remove_loop_obj_spec batch (length h) (h ++ [counts]) counts)
    as (h' & Hrun & _ & Hother).
  { rewrite lookup_app_r by lia. by rewrite Nat.sub_diag. }
  exists h'. split; [done|]. intros l' Hl'.
  rewrite Hother by lia. by apply lookup_app_l.
Qed.

(** ** The input parser *)

Lemma split_on_nonempty sep s : split_on sep s ≠ [].
Proof.
  destruct s as [|c s]; simpl; [done|]. case_decide; [done|].
  by destruct (split_on sep s).
Qed.

(** The parser accepts exactly the digit groups. *)
Lemma parse_digits_groups s acc after_underscore :
  is_Some (parse_digits acc after_underscore s) ↔
  match split_on "_"%char s with
  | [] => False
  | g :: gs =>
      (if after_underscore then digit_group g = true else forallb is_digit g = true)
      ∧ forallb digit_group gs = true
  end.
Proof.
  revert acc after_underscore. induction s as [|c s IH]; intros acc au; simpl.
  - destruct au; simpl.
    + split; [by intros ?%is_Some_None | by intros [? _]].
    + split; [done | by eexists].
  - case_decide as Hc.
    + destruct au.
      * split; [by intros ?%is_Some_None|]. by intros [? _].
      * rewrite IH. pose proof (split_on_nonempty "_"%char s).
        destruct (split_on "_"%char s) as [|g gs]; [done|]. simpl.
        rewrite andb_true_iff. tauto.
    + destruct (is_digit c) eqn:Hd.
      * rewrite IH. pose proof (split_on_nonempty "_"%char s).
        destruct (split_on "_"%char s) as [|g gs]; [done|]. simpl. rewrite Hd. simpl.
        destruct au; simpl; tauto.
      * pose proof (split_on_nonempty "_"%char s).
        destruct (split_on "_"%char s) as [|g gs]; [done|]. simpl. rewrite Hd. simpl.
        split; [by intros ?%is_Some_None|]. destruct au; by intros [? _].
Qed.

Lemma parse_digits_literal s :
  is_Some (parse_digits 0 true s) ↔ forallb digit_group (split_on "_"%char s) = true.
Proof.
  rewrite parse_digits_groups. pose proof (split_on_nonempty "_"%char s).
  destruct (split_on "_"%char s) as [|g gs]; [done|]. simpl.
  by rewrite andb_true_iff.
Qed.

Lemma py_int_literal s : is_Some (py_int s) ↔ int_literal s = true.
Proof.
  unfold py_int, int_literal, unsigned_part.
  destruct (strip s) as [|c u]; [apply parse_digits_literal|].
  destruct (decide (c = "+"%char)) as [->|Hplus]; [apply parse_digits_literal|].
  destruct (decide (c = "-"%char)) as [->|Hminus].
  { rewrite fmap_is_Some. apply parse_digits_literal. }
  rewrite <- parse_digits_literal.
  destruct c as [[] [] [] [] [] [] [] []]; done.
Qed.

Lemma py_int_not_literal s : int_literal s = false → py_int s = None.
Proof.
  intros Hl. destruct (py_int s) eqn:Hp; [|done].
  assert (is_Some (py_int s)) as Hs%py_int_literal by by rewrite Hp. congruence.
Qed.

(** ** Point lists on the stack *)

Lemma reachable_points_nonempty width distances points stack :
  points ≠ [] →
  reachable width (initial_stack distances points) stack →
  Forall (λ e : entry, e.2 ≠ []) stack.
Proof.
  intros Hne. apply reachable_Forall.
  - by repeat constructor.
  - intros c counts pts pushed _. unfold process_candidate.
    destruct (can_remove_distances _ _); [|intros [= <-]; constructor].
    destruct (decrement_all _ _); [|done].
    case_decide; intros [= <-]; repeat constructor. simpl. by destruct pts.
Qed.

Lemma reachable_points_ends width distances (a b : Z) stack :
  a ≠ b →
  reachable width (initial_stack distances [a; b]) stack →
  Forall (λ e : entry, a ∈ e.2 ∧ b ∈ e.2 ∧ NoDup e.2) stack.
Proof.
  intros Hab. apply reachable_Forall.
  - constructor; [|constructor]. cbn [snd]. split_and!.
    + left.
    + right; left.
    + apply NoDup_cons. split; [|apply NoDup_singleton].
      by intros ->%list_elem_of_singleton.
  - intros c counts pts pushed (Ha & Hb & Hnd). unfold process_candidate.
    destruct (can_remove_distances _ _); [|intros [= <-]; constructor].
    destruct (decrement_all _ _); [|done].
    case_decide as Hc; intros [= <-]; [constructor|].
    constructor; [|constructor]. cbn [snd]. split_and!.
    + apply elem_of_app. by left.
    + apply elem_of_app. by left.
    + apply NoDup_app. split; [done|]. split; [|apply NoDup_singleton].
      by intros x Hx ->%list_elem_of_singleton.
Qed.

Lemma search_arguments_Some fragment_lengths width distances starter :
  search_arguments fragment_lengths = Some (width, distances, starter) →
  py_max fragment_lengths = Some width ∧
  distances = filter (λ d, d ≠ width) fragment_lengths ∧
  starter = [0; width].
Proof.
  unfold search_arguments. destruct (py_max fragment_lengths); [|done].
  by intros [= -> <- <-].
Qed.

(** When the width occurs once, dropping every copy of it drops one. *)
Lemma filter_single_width fragment_lengths width :
  occ width fragment_lengths = 1 →
  width :: filter (λ d, d ≠ width) fragment_lengths ≡ₚ fragment_lengths.
Proof.
  intros Hocc. apply occ_Permutation. intros x. rewrite occ_cons, occ_filter_ne.
  repeat case_decide; subst; congruence || lia.
Qed.

(** ** The parser on any text *)

Section text_facts.
Context {A : Type} `{EqDecision A} (cs : charset A).

Lemma split_of_nonempty sep (s : list A) : split_of sep s ≠ [].
Proof.
  destruct s as [|c s]; simpl; [done|]. case_decide; [done|].
  by destruct (split_of sep s).
Qed.

Lemma parse_digits_of_groups (s : list A) acc after_underscore :
  is_Some (parse_digits_of cs acc after_underscore s) ↔
  match split_of (underscore cs) s with
  | [] => False
  | g :: gs =>
      (if after_underscore then digit_group_of cs g = true
       else forallb (λ c, bool_decide (is_Some (char_digit cs c))) g = true)
      ∧ forallb (digit_group_of cs) gs = true
  end.
Proof.
  revert acc after_underscore. induction s as [|c s IH]; intros acc au; simpl.
  - destruct au; simpl.
    + split; [by intros ?%is_Some_None | by intros [? _]].
    + split; [done | by eexists].
  - pose proof (split_of_nonempty (underscore cs) s) as Hne.
    case_decide as Hc.
    + destruct au.
      * split; [by intros ?%is_Some_None|]. by intros [? _].
      * rewrite IH. destruct (split_of (underscore cs) s) as [|g gs]; [done|].
        simpl. rewrite andb_true_iff. tauto.
    + destruct (char_digit cs c) as [d|] eqn:Hd.
      * rewrite IH. destruct (split_of (underscore cs) s) as [|g gs]; [done|].
        simpl. rewrite Hd. rewrite bool_decide_true by done. simpl.
        destruct au; simpl; tauto.
      * destruct (split_of (underscore cs) s) as [|g gs]; [done|].
        simpl. rewrite Hd. rewrite bool_decide_false by (by intros ?%is_Some_None).
        simpl. split; [by intros ?%is_Some_None|]. destruct au; by intros [? _].
Qed.

Lemma parse_digits_of_literal (s : list A) :
  is_Some (parse_digits_of cs 0 true (unsigned_of cs s)) ↔ int_literal_of cs s = true.
Proof.
  unfold int_literal_of. rewrite parse_digits_of_groups.
  pose proof (split_of_nonempty (underscore cs) (unsigned_of cs s)).
  destruct (split_of (underscore cs) (unsigned_of cs s)) as [|g gs]; [done|].
  simpl. by rewrite andb_true_iff.
Qed.

Lemma py_int_of_readable max_str_digits (s : list A) :
  is_Some (py_int_of cs max_str_digits s) ↔ readable_of cs max_str_digits s = true.
Proof.
  unfold py_int_of, readable_of. rewrite andb_true_iff, <- parse_digits_of_literal.
  destruct (parse_digits_of cs 0 true (unsigned_of cs s)) as [v|].
  - destruct (over_limit max_str_digits (digit_count cs s)); simpl.
    + split; [by intros ?%is_Some_None | by intros [_ ?]].
    + split; [done | by eexists].
  - split; [by intros ?%is_Some_None | by intros [?%is_Some_None _]].
Qed.

Lemma py_int_of_not_literal max_str_digits (s : list A) :
  int_literal_of cs s = false → py_int_of cs max_str_digits s = None.
Proof.
  intros Hl. destruct (py_int_of cs max_str_digits s) eqn:Hp; [|done].
  assert (is_Some (py_int_of cs max_str_digits s)) as Hs%py_int_of_readable
    by by rewrite Hp.
  unfold readable_of in Hs. rewrite Hl in Hs. done.
Qed.

End text_facts.

(** * The claims *)

(** C1 (fails on the code).  [partial_digest] drops every copy of the width
    from the input, so on [[4, 4]] it returns the points [[0, 4]], whose
    pairwise distances are [[4]] and not the input multiset. *)
Theorem partial_digest_repeated_width :
  partial_digest [4; 4] = Returned (Some [0; 4]) ∧
  all_pairwise_distances [0; 4] = [4] ∧
  ¬ all_pairwise_distances [0; 4] ≡ₚ [4; 4].
Proof.
  split; [by vm_compute|]. split; [by vm_compute|].
  intros Hp%Permutation_length. by vm_compute in Hp.
Qed.

(** C2 (fails on the code).  On [[4, 4]] the width is [4] and the starting
    points are [[0, 4]], but the search starts with no distance at all: both
    copies of the width are removed, not one. *)
Theorem search_arguments_repeated_width :
  search_arguments [4; 4] = Some (4, [], [0; 4]) ∧
  initial_stack [] [0; 4] = [(∅, [0; 4])] ∧
  occ 4 [] ≠ occ 4 [4; 4] - 1.
Proof. split; [by vm_compute|]. split; [done|]. by vm_compute. Qed.

(** C3.  Round trip: for a sorted list [P] of distinct non-negative integers
    with at least two elements that starts at [0], [partial_digest] applied
    to [all_pairwise_distances P] returns a point list, and the pairwise
    distances of that list are those of [P], as a multiset. *)
Theorem partial_digest_roundtrip (P : list Z) :
  Sorted Z.le P → NoDup P → Forall (λ p, 0 ≤ p) P → (2 ≤ length P)%nat →
  head P = Some 0 →
  ∃ P2,
    partial_digest (all_pairwise_distances P) = Returned (Some P2) ∧
    all_pairwise_distances P2 ≡ₚ all_pairwise_distances P.
Proof.
  intros _ Hnd Hnn Hlen Hhd.
  assert (H0 : 0 ∈ P) by (destruct P; simplify_eq/=; left).
  destruct (point_set_ends P Hnd Hnn Hlen H0) as (w & others & Hperm & Hrange).
  by apply (digest_roundtrip w others).
Qed.

Lemma partial_digest_roundtrip_witness :
  ∃ P2,
    partial_digest (all_pairwise_distances [0; 2; 4; 7]) = Returned (Some P2) ∧
    all_pairwise_distances P2 ≡ₚ all_pairwise_distances [0; 2; 4; 7].
Proof.
  apply (partial_digest_roundtrip [0; 2; 4; 7]).
  - repeat constructor; lia.
  - apply (bool_decide_unpack _). vm_compute. reflexivity.
  - repeat constructor; lia.
  - simpl. lia.
  - reflexivity.
Defined.

(** C4 (as stated, fails on the code).  Started with an empty point list,
    as in [find_solution(5, [3], [])], the first turn pushes two children
    whose total is the parent's total: nothing is removed for a candidate
    that has no point to be measured against. *)
Lemma child_total_unchanged_without_points :
  reachable 5 (initial_stack [3] []) [(create_distance_counts [3], [])] ∧
  step 5 [(create_distance_counts [3], [])]
  = Continue ([(create_distance_counts [3], [2]); (create_distance_counts [3], [3])]
              ++ []) ∧
  ¬ sum_values (create_distance_counts [3]) < sum_values (create_distance_counts [3]).
Proof.
  split; [constructor|]. split; [by vm_compute | lia].
Qed.

(** C4, amended.  When a turn of [find_solution] pops a parent entry and
    pushes a child, the total of the child's counts is the total of the
    parent's counts minus the number of the parent's points; the total
    strictly decreases whenever the search was started with at least one
    point, as [partial_digest] starts it. *)
Theorem child_total_decreases width distances points
    curr_counts curr_points rest pushed new_counts new_points :
  reachable width (initial_stack distances points) ((curr_counts, curr_points) :: rest) →
  step width ((curr_counts, curr_points) :: rest) = Continue (pushed ++ rest) →
  (new_counts, new_points) ∈ pushed →
  sum_values new_counts = sum_values curr_counts - Z.of_nat (length curr_points) ∧
  (points ≠ [] → sum_values new_counts < sum_values curr_counts).
Proof.
  intros Hreach Hstep Hin.
  apply step_Continue in Hstep
    as (counts & pts & rest' & pushed' & [= <- <- <-] & _ & Hexp & ->%app_inv_tail).
  pose proof (reachable_positive _ _ _ _ Hreach) as [Hpos _]%Forall_cons.
  assert (Heq : sum_values new_counts
                = sum_values curr_counts - Z.of_nat (length curr_points)).
  { apply expand_pushed in Hexp as (m & p1 & p2 & _ & H1 & H2 & ->).
    apply elem_of_app in Hin as [Hin|Hin];
      [destruct (process_candidate_pushed _ _ _ _ Hpos H2)
         as [->|(nc & -> & _ & _ & _ & _ & Hs)]
      |destruct (process_candidate_pushed _ _ _ _ Hpos H1)
         as [->|(nc & -> & _ & _ & _ & _ & Hs)]];
      try (by apply elem_of_nil in Hin);
      apply list_elem_of_singleton in Hin; by simplify_eq. }
  split; [done|]. intros Hne.
  pose proof (reachable_points_nonempty _ _ _ _ Hne Hreach) as [Hpts _]%Forall_cons.
  simpl in Hpts. destruct curr_points; [done|]. simpl length in Heq. lia.
Qed.

Lemma child_total_decreases_witness :
  sum_values (∅ : gmap Z Z) = sum_values (create_distance_counts [1; 1]) - 2 ∧
  ([0; 2] ≠ [] → sum_values (∅ : gmap Z Z) < sum_values (create_distance_counts [1; 1])).
Proof.
  apply (child_total_decreases 2 [1; 1] [0; 2]
           (create_distance_counts [1; 1]) [0; 2] []
           [(∅, [0; 2; 1]); (∅, [0; 2; 1])] ∅ [0; 2; 1]).
  - constructor.
  - vm_compute. reflexivity.
  - left.
Defined.

(** C5.  Every counts mapping on a stack that [find_solution] goes through,
    the initial one and every derived one, maps each of its keys to a
    strictly positive count: no key is left with count zero. *)
Theorem stack_counts_positive width distances points stack :
  reachable width (initial_stack distances points) stack →
  Forall (λ e : entry, ∀ k v, e.1 !! k = Some v → 0 < v) stack.
Proof. apply reachable_positive. Qed.

Lemma stack_counts_positive_witness :
  Forall (λ e : entry, ∀ k v, e.1 !! k = Some v → 0 < v)
    [((∅ : gmap Z Z), [0; 2; 1]); (∅, [0; 2; 1])].
Proof.
  apply (stack_counts_positive 2 [1; 1] [0; 2]).
  eapply reachable_step; [apply reachable_start|]. vm_compute. reflexivity.
Defined.

(** C6.  For a list of positive integers, with [width] the value that
    [partial_digest] derives, every point list on a stack of the search, and
    every solution returned, contains [0] and [width] and has no duplicate. *)
Theorem stack_points_distinct fragment_lengths width distances starter :
  Forall (λ d, 0 < d) fragment_lengths →
  search_arguments fragment_lengths = Some (width, distances, starter) →
  (∀ stack, reachable width (initial_stack distances starter) stack →
     Forall (λ e : entry, 0 ∈ e.2 ∧ width ∈ e.2 ∧ NoDup e.2) stack) ∧
  (∀ sol, partial_digest fragment_lengths = Returned (Some sol) →
     0 ∈ sol ∧ width ∈ sol ∧ NoDup sol).
Proof.
  intros Hpos (Hmax & -> & ->)%search_arguments_Some.
  assert (Hw : 0 ≠ width).
  { pose proof Hmax as [Hin _]%py_max_spec.
    rewrite Forall_forall in Hpos. specialize (Hpos _ Hin). lia. }
  split; [intros stack; by apply reachable_points_ends|].
  intros sol. rewrite (partial_digest_unfold _ _ Hmax). intros Hsol.
  unfold find_solution in Hsol.
  eapply run_reachable_Some in Hsol
    as (counts & pts & rest & Hreach & _ & ->); [|constructor].
  apply reachable_points_ends in Hreach as [(H0 & H1 & Hnd) _]%Forall_cons; [|done].
  simpl in *. by rewrite !sorted_Permutation.
Qed.

Lemma stack_points_distinct_witness :
  (∀ stack, reachable 4 (initial_stack [2; 2] [0; 4]) stack →
     Forall (λ e : entry, 0 ∈ e.2 ∧ 4 ∈ e.2 ∧ NoDup e.2) stack) ∧
  (∀ sol, partial_digest [2; 2; 4] = Returned (Some sol) →
     0 ∈ sol ∧ 4 ∈ sol ∧ NoDup sol).
Proof.
  apply (stack_points_distinct [2; 2; 4] 4 [2; 2] [0; 4]).
  - repeat constructor.
  - vm_compute. reflexivity.
Defined.

(** C7.  [can_remove_distances(batch, counts)] is [True] exactly when every
    value of [batch] is a key of [counts] whose count is at least the number
    of times the value occurs in [batch]; and the call leaves the dictionary
    it was given, like every dictionary that existed before the call, as it
    was. *)
Theorem can_remove_distances_correct batch (dist_counts : nat) (h : heap) counts :
  h !! dist_counts = Some counts →
  ∃ result h',
    can_remove_distances_obj batch dist_counts h = Some (result, h') ∧
    result = can_remove_distances batch counts ∧
    (result = true ↔ ∀ d, d ∈ batch → ∃ c, counts !! d = Some c ∧ occ d batch ≤ c) ∧
    h' !! dist_counts = Some counts ∧
    ∀ l, (l < length h)%nat → h' !! l = h !! l.
Proof.
  intros Hl.
  destruct (can_remove_distances_obj_spec batch _ _ _ Hl) as (h' & Hrun & Hother).
  exists (can_remove_distances batch counts), h'. split_and!.
  - done.
  - done.
  - apply can_remove_loop_spec.
  - rewrite Hother; [done|]. by eapply lookup_lt_Some.
  - done.
Qed.

Lemma can_remove_distances_correct_witness :
  let counts : gmap Z Z := {[3 := 2; 5 := 1]} in
  ∃ result h',
    can_remove_distances_obj [3; 3; 5] 0 [counts] = Some (result, h') ∧
    result = can_remove_distances [3; 3; 5] counts ∧
    (result = true ↔
       ∀ d, d ∈ [3; 3; 5] → ∃ c, counts !! d = Some c ∧ occ d [3; 3; 5] ≤ c) ∧
    h' !! 0%nat = Some counts ∧
    ∀ l, (l < 1)%nat → h' !! l = [counts] !! l.
Proof.
  intros counts.
  apply (can_remove_distances_correct [3; 3; 5] 0 [counts] counts).
  reflexivity.
Defined.

(** C8.  When a turn of [find_solution] gets past the success test, the
    counts mapping of the popped entry is not empty and [max] of its keys is
    defined; no exception is raised, and [find_solution] returns on every
    input. *)
Theorem max_key_defined width distances points :
  (∀ curr_counts curr_points rest,
     reachable width (initial_stack distances points)
       ((curr_counts, curr_points) :: rest) →
     sum_values curr_counts ≠ 0 →
     (∀ k v, curr_counts !! k = Some v → 0 < v) ∧
     curr_counts ≠ ∅ ∧
     (∃ max_dist, max_key curr_counts = Some max_dist) ∧
     ∀ e, step width ((curr_counts, curr_points) :: rest) ≠ Fail e) ∧
  ∃ r, find_solution width distances points = Returned r.
Proof.
  split; [|apply find_solution_returns].
  intros counts pts rest Hreach Hsum.
  pose proof (reachable_positive _ _ _ _ Hreach) as [Hpos _]%Forall_cons.
  pose proof (sum_values_nonzero_nonempty _ Hsum) as Hne.
  split_and!; [done..| |].
  - destruct (max_key counts) eqn:Hm; [by eexists|]. by apply max_key_None in Hm.
  - intros e. simpl. destruct (Z.eqb_spec (sum_values counts) 0); [done|].
    by destruct (expand_inr width counts pts Hne) as [pushed ->].
Qed.

Lemma max_key_defined_witness :
  (∀ curr_counts curr_points rest,
     reachable 4 (initial_stack [2; 2] [0; 4]) ((curr_counts, curr_points) :: rest) →
     sum_values curr_counts ≠ 0 →
     (∀ k v, curr_counts !! k = Some v → 0 < v) ∧
     curr_counts ≠ ∅ ∧
     (∃ max_dist, max_key curr_counts = Some max_dist) ∧
     ∀ e, step 4 ((curr_counts, curr_points) :: rest) ≠ Fail e) ∧
  ∃ r, find_solution 4 [2; 2] [0; 4] = Returned r.
Proof. apply (max_key_defined 4 [2; 2] [0; 4]). Defined.

(** C9.  [partial_digest] returns [None] on the empty list, and [[0, d]] on
    the one-element list [[d]] for every positive [d]. *)
Theorem partial_digest_degenerate :
  partial_digest [] = Returned None ∧
  ∀ d, 0 < d → partial_digest [d] = Returned (Some [0; d]).
Proof.
  split; [done|]. intros d Hd.
  rewrite (partial_digest_unfold [d] d) by done.
  rewrite filter_cons, decide_False by (intros H; by apply H).
  unfold find_solution. change (turns_bound (filter _ [])) with 4%nat.
  unfold initial_stack, create_distance_counts. cbn [filter list_filter foldl run step].
  rewrite sum_values_empty. cbn [Z.eqb]. do 2 f_equal.
  unfold sorted, merge_sort. cbn. rewrite decide_True by lia. done.
Qed.

Lemma partial_digest_degenerate_witness :
  partial_digest [] = Returned None ∧ partial_digest [7] = Returned (Some [0; 7]).
Proof.
  split.
  - apply partial_digest_degenerate.
  - apply (proj2 partial_digest_degenerate 7). lia.
Defined.

(** C10 (as stated, fails on the code).  The first and last characters of
    the stripped input are dropped without being looked at: the input
    [(1,2)] has no brackets and still yields the list [[1, 2]]. *)
Lemma extract_ignores_brackets :
  bracketed_integer_list "(1,2)" = false ∧
  extract_array_from_input "(1,2)" = Some [1; 2] ∧
  extract_array_from_text latin1 4300 (list_ascii_of_string "(1,2)") = Some [1; 2].
Proof. split; [|split]; by vm_compute. Qed.

(** C10, amended.  For a text over any character set and under any digit
    limit: when the text between the first and the last character of the
    stripped input is not empty and one of its comma-separated tokens,
    stripped, is not an integer literal (an optional sign, then non-empty
    groups of decimal digits separated by single underscores),
    [extract_array_from_input] returns [None]. *)
Theorem extract_rejects_non_numeric_token {A : Type} `{EqDecision A}
    (cs : charset A) (max_str_digits : nat) (input_str token : list A) :
  let content := slice_of (strip_of cs input_str) in
  content ≠ [] →
  token ∈ split_of (comma cs) content →
  int_literal_of cs (strip_of cs token) = false →
  extract_array_from_text cs max_str_digits input_str = None.
Proof.
  intros content Hne Hin Hlit. unfold extract_array_from_text. fold content.
  destruct content as [|c content']; [done|].
  apply mapM_None, Exists_exists. exists token. split; [done|].
  by apply py_int_of_not_literal.
Qed.

Lemma extract_rejects_non_numeric_token_witness :
  extract_array_from_text latin1 4300 (list_ascii_of_string "[1, x]") = None.
Proof.
  apply (extract_rejects_non_numeric_token latin1 4300
           (list_ascii_of_string "[1, x]") [" "; "x"]%char).
  - vm_compute. discriminate.
  - vm_compute. right; left.
  - vm_compute. reflexivity.
Defined.

(** * Further properties of the code *)

(** ** The distance multiset *)

Lemma create_counts_lookup distances x :
  create_distance_counts distances !! x
  = if decide (x ∈ distances) then Some (occ x distances) else None.
Proof.
  pose proof (create_distance_counts_cnt distances x) as Hcnt.
  pose proof (create_distance_counts_positive distances) as Hpos.
  case_decide as Hin.
  - apply occ_pos in Hin. rewrite <- Hcnt. apply cnt_pos_lookup; [done | lia].
  - rewrite (occ_zero _ _ Hin) in Hcnt.
    destruct (create_distance_counts distances !! x) as [v|] eqn:Hv; [|done].
    rewrite (cnt_lookup _ _ _ Hv) in Hcnt. specialize (Hpos _ _ Hv). lia.
Qed.

Lemma create_counts_Permutation distances distances' :
  distances ≡ₚ distances' →
  create_distance_counts distances = create_distance_counts distances'.
Proof.
  intros Hp. apply map_eq. intros x. rewrite !create_counts_lookup.
  rewrite occ_Permutation in Hp. rewrite (Hp x).
  assert (x ∈ distances ↔ x ∈ distances') by by rewrite <- !occ_pos, Hp.
  repeat case_decide; tauto.
Qed.

(** X1.  [create_distance_counts] stores, for each value of the list, the
    number of times it occurs, and has no other key; the stored counts add up
    to the length of the list. *)
Theorem create_distance_counts_counts distances :
  (∀ x, create_distance_counts distances !! x
        = if decide (x ∈ distances) then Some (occ x distances) else None) ∧
  sum_values (create_distance_counts distances) = Z.of_nat (length distances).
Proof.
  split; [intros x; apply create_counts_lookup | apply create_distance_counts_sum].
Qed.

(** X2.  The dictionary built by [create_distance_counts] does not depend on
    the order of the list. *)
Theorem create_distance_counts_order distances distances' :
  distances ≡ₚ distances' →
  create_distance_counts distances = create_distance_counts distances'.
Proof. apply create_counts_Permutation. Qed.

Lemma create_distance_counts_order_witness :
  create_distance_counts [3; 1; 3] = create_distance_counts [1; 3; 3].
Proof.
  apply create_distance_counts_order.
  apply perm_swap.
Defined.

(** X3.  Removing an accepted batch: when [can_remove_distances] says yes on
    a dictionary of positive counts, the decrement loop finds every key (no
    [KeyError]), and after the zero filter each value keeps its count minus
    its number of occurrences in the batch, the values used up being no
    longer keys. *)
Theorem accepted_batch_removed batch counts :
  positive_counts counts →
  can_remove_distances batch counts = true →
  ∃ counts',
    decrement_all batch counts = Some counts' ∧
    ∀ x, drop_zero_counts counts' !! x
         = if decide (occ x batch < cnt counts x)
           then Some (cnt counts x - occ x batch) else None.
Proof.
  intros Hpos Hcan.
  destruct (removal_result _ _ Hpos Hcan) as (counts' & Hdec & Hnn & _ & Hcnt).
  exists counts'. split; [done|]. intros x. specialize (Hcnt x).
  pose proof (drop_zero_positive counts') as Hpos'.
  destruct (drop_zero_counts counts' !! x) as [v|] eqn:Hv.
  - rewrite (cnt_lookup _ _ _ Hv) in Hcnt. specialize (Hpos' _ _ Hv).
    rewrite decide_True by lia. by rewrite Hcnt.
  - rewrite (cnt_None_zero _ _ Hv) in Hcnt. rewrite decide_False; [done | lia].
Qed.

Lemma accepted_batch_removed_witness :
  let counts : gmap Z Z := {[3 := 2; 5 := 1]} in
  ∃ counts',
    decrement_all [3; 5] counts = Some counts' ∧
    ∀ x, drop_zero_counts counts' !! x
         = if decide (occ x [3; 5] < cnt counts x)
           then Some (cnt counts x - occ x [3; 5]) else None.
Proof.
  intros counts. apply (accepted_batch_removed [3; 5] counts).
  - intros k v Hkv. unfold counts in Hkv.
    destruct (decide (k = 3)) as [->|]; [by simplify_map_eq|].
    destruct (decide (k = 5)) as [->|]; by simplify_map_eq.
  - reflexivity.
Defined.

(** X4.  The answer of [can_remove_distances] does not depend on the order
    of the batch. *)
Theorem can_remove_distances_order batch batch' counts :
  batch ≡ₚ batch' →
  can_remove_distances batch counts = can_remove_distances batch' counts.
Proof.
  intros Hp. unfold can_remove_distances.
  assert (Hiff : can_remove_loop batch counts = true
                 ↔ can_remove_loop batch' counts = true).
  { rewrite !can_remove_loop_spec. pose proof Hp as Hocc. rewrite occ_Permutation in Hocc.
    split; intros H d Hd.
    - rewrite <- Hocc. apply H. by rewrite Hp.
    - rewrite Hocc. apply H. by rewrite <- Hp. }
  destruct (can_remove_loop batch counts), (can_remove_loop batch' counts);
    try done; [symmetry|]; by apply Hiff.
Qed.

Lemma can_remove_distances_order_witness :
  can_remove_distances [3; 5; 3] {[3 := 2; 5 := 1]}
  = can_remove_distances [5; 3; 3] {[3 := 2; 5 := 1]}.
Proof. apply can_remove_distances_order. apply perm_swap. Defined.

(** ** Distances from a candidate *)

(** X5.  [calculate_distances] returns one non-negative distance per point,
    and [0] is among them exactly when the reference point is one of the
    points. *)
Theorem calculate_distances_shape pt points :
  length (calculate_distances pt points) = length points ∧
  Forall (λ d, 0 ≤ d) (calculate_distances pt points) ∧
  (0 ∈ calculate_distances pt points ↔ pt ∈ points).
Proof.
  split; [apply calculate_distances_length|]. split.
  - apply Forall_forall. intros d (p & _ & ->)%elem_of_calculate_distances. lia.
  - rewrite elem_of_calculate_distances. split.
    + intros (p & Hp & Heq). by replace pt with p by lia.
    + intros Hin. exists pt. split; [done | lia].
Qed.

(** X6.  A candidate that is already one of the points is turned down by
    [can_remove_distances] itself as soon as [0] is not a key of the counts,
    and in any case nothing is pushed for it. *)
Theorem placed_candidate_rejected candidate counts points :
  candidate ∈ points →
  (counts !! 0 = None →
   can_remove_distances (calculate_distances candidate points) counts = false) ∧
  process_candidate candidate counts points = inr [].
Proof.
  intros Hin. split.
  - intros H0. destruct (can_remove_distances _ counts) eqn:Hcan; [|done].
    unfold can_remove_distances in Hcan. rewrite can_remove_loop_spec in Hcan.
    destruct (Hcan 0) as (c & Hc & _); [|congruence].
    apply elem_of_calculate_distances. exists candidate. split; [done | lia].
  - unfold process_candidate.
    destruct (can_remove_distances _ counts) eqn:Hcan; [|done].
    destruct (can_remove_decrement _ _ Hcan) as [counts' ->].
    by rewrite decide_True.
Qed.

Lemma placed_candidate_rejected_witness :
  (({[2 := 1]} : gmap Z Z) !! 0 = None →
   can_remove_distances (calculate_distances 4 [0; 4]) {[2 := 1]} = false) ∧
  process_candidate 4 {[2 := 1]} [0; 4] = inr [].
Proof. apply (placed_candidate_rejected 4 {[2 := 1]} [0; 4]). right; left. Defined.

(** ** The verification list *)

Lemma pairwise_loop_length (l : list Z) :
  (2 * length (pairwise_loop l) = length l * (length l - 1))%nat.
Proof.
  induction l as [|a l IH]; [done|].
  cbn [pairwise_loop]. rewrite length_app, length_map. simpl length.
  destruct l as [|b l]; [done|]. simpl length in *. nia.
Qed.

Lemma sorted_Sorted l : Sorted Z.le (sorted l).
Proof. apply (Sorted_merge_sort Z.le). Qed.

Lemma sorted_lists_equal (l1 l2 : list Z) :
  Sorted Z.le l1 → Sorted Z.le l2 → l1 ≡ₚ l2 → l1 = l2.
Proof.
  apply (@Sorted_unique Z Z.le Z.le_trans (λ x y, Z.le_antisymm x y)).
Qed.

Lemma all_pairwise_distances_perm_eq points points' :
  pairwise_loop points ≡ₚ pairwise_loop points' →
  all_pairwise_distances points = all_pairwise_distances points'.
Proof.
  intros Hp. apply sorted_lists_equal; [apply sorted_Sorted..|].
  by rewrite !all_pairwise_distances_Permutation.
Qed.

Lemma pairwise_loop_isometry (f : Z → Z) (l : list Z) :
  (∀ a b, Z.abs (f a - f b) = Z.abs (a - b)) →
  pairwise_loop (map f l) = pairwise_loop l.
Proof.
  intros Hf. induction l as [|a l IH]; [done|].
  cbn [map pairwise_loop]. rewrite IH, map_map. f_equal.
  apply map_ext. intros b. apply Hf.
Qed.

Lemma pairwise_loop_positive (l : list Z) :
  NoDup l ↔ Forall (λ d, 0 < d) (pairwise_loop l).
Proof.
  induction l as [|a l IH]; cbn [pairwise_loop].
  - split; constructor.
  - rewrite NoDup_cons, Forall_app, IH, Forall_fmap.
    rewrite (Forall_forall _ l).
    split; intros [Ha Hl]; (split; [|done]).
    + intros b Hb. simpl. assert (a ≠ b) by (intros ->; done). lia.
    + intros Hin. specialize (Ha a Hin). simpl in Ha. lia.
Qed.

(** X7.  [all_pairwise_distances] lists one distance per pair of positions:
    [n * (n - 1) / 2] of them for [n] points; the list is in ascending order
    and has no negative entry. *)
Theorem all_pairwise_distances_shape points :
  (2 * length (all_pairwise_distances points)
   = length points * (length points - 1))%nat ∧
  Sorted Z.le (all_pairwise_distances points) ∧
  Forall (λ d, 0 ≤ d) (all_pairwise_distances points).
Proof.
  split; [|split].
  - rewrite (Permutation_length (all_pairwise_distances_Permutation points)).
    apply pairwise_loop_length.
  - apply sorted_Sorted.
  - apply Forall_forall. intros d Hd.
    rewrite all_pairwise_distances_Permutation in Hd.
    apply elem_of_pairwise_loop in Hd as (a & b & _ & _ & ->). lia.
Qed.

(** X8.  [all_pairwise_distances] returns the same list for the same points
    in any order. *)
Theorem all_pairwise_distances_order points points' :
  points ≡ₚ points' →
  all_pairwise_distances points = all_pairwise_distances points'.
Proof.
  intros Hp. by apply all_pairwise_distances_perm_eq, pairwise_loop_Permutation.
Qed.

Lemma all_pairwise_distances_order_witness :
  all_pairwise_distances [4; 0; 2] = all_pairwise_distances [0; 4; 2].
Proof. apply all_pairwise_distances_order. apply perm_swap. Defined.

(** X9.  Shifting every point by the same amount, or mirroring every point
    within a width, leaves the list of [all_pairwise_distances] unchanged. *)
Theorem all_pairwise_distances_shift_mirror points t :
  all_pairwise_distances (map (λ p, p + t) points) = all_pairwise_distances points ∧
  all_pairwise_distances (map (λ p, t - p) points) = all_pairwise_distances points.
Proof.
  split; apply all_pairwise_distances_perm_eq;
    rewrite pairwise_loop_isometry; try done; intros a b; lia.
Qed.

(** X10.  The points are pairwise distinct exactly when every distance of
    [all_pairwise_distances] is strictly positive. *)
Theorem all_pairwise_distances_positive points :
  NoDup points ↔ Forall (λ d, 0 < d) (all_pairwise_distances points).
Proof.
  rewrite (all_pairwise_distances_Permutation points), <- pairwise_loop_positive.
  done.
Qed.

(** ** What the search returns *)

Lemma reachable_points_kept width distances points stack :
  reachable width (initial_stack distances points) stack →
  Forall (λ e : entry, ∀ p, p ∈ points → p ∈ e.2) stack.
Proof.
  apply reachable_Forall.
  - by repeat constructor.
  - intros c counts pts pushed Hsub. unfold process_candidate.
    destruct (can_remove_distances _ _); [|intros [= <-]; constructor].
    destruct (decrement_all _ _); [|done].
    case_decide; intros [= <-]; repeat constructor. simpl.
    intros p Hp. apply elem_of_app. left. by apply Hsub.
Qed.

Lemma find_solution_keeps_points width distances points sol :
  find_solution width distances points = Returned (Some sol) →
  ∀ p, p ∈ points → p ∈ sol.
Proof.
  intros Hsol. unfold find_solution in Hsol.
  eapply run_reachable_Some in Hsol
    as (counts & pts & rest & Hreach & _ & ->); [|constructor].
  apply reachable_points_kept in Hreach as [Hsub _]%Forall_cons.
  intros p Hp. rewrite sorted_Permutation. by apply Hsub.
Qed.

(** X11.  For any arguments of [find_solution], a returned solution keeps
    every initial point, and its pairwise distances are the given distances
    together with the pairwise distances of the initial points. *)
Theorem find_solution_accounts width distances points sol :
  find_solution width distances points = Returned (Some sol) →
  (∀ p, p ∈ points → p ∈ sol) ∧
  all_pairwise_distances sol ≡ₚ distances ++ pairwise_loop points.
Proof.
  intros Hsol. split.
  - by apply (find_solution_keeps_points width distances).
  - by apply (find_solution_sound width).
Qed.

Lemma find_solution_accounts_witness :
  (∀ p, p ∈ [0; 10] → p ∈ [0; 3; 10]) ∧
  all_pairwise_distances [0; 3; 10] ≡ₚ [3; 7] ++ pairwise_loop [0; 10].
Proof. apply (find_solution_accounts 10 [3; 7] [0; 10]). vm_compute. reflexivity. Defined.

(** X12.  Whatever the input, the pairwise distances of a solution returned
    by [partial_digest] are the input with all the copies of its maximum
    replaced by a single one. *)
Theorem partial_digest_collapses_width fragment_lengths width sol :
  py_max fragment_lengths = Some width →
  partial_digest fragment_lengths = Returned (Some sol) →
  all_pairwise_distances sol
  ≡ₚ Z.abs width :: filter (λ d, d ≠ width) fragment_lengths.
Proof. apply partial_digest_accounts. Qed.

Lemma partial_digest_collapses_width_witness :
  all_pairwise_distances [0; 2; 4]
  ≡ₚ Z.abs 4 :: filter (λ d, d ≠ 4) [4; 2; 4; 2].
Proof.
  apply (partial_digest_collapses_width [4; 2; 4; 2] 4 [0; 2; 4]); by vm_compute.
Defined.

(** X13.  When the maximum of a list of positive distances occurs once, the
    verification list of a returned solution is the input in ascending
    order, and a solution with [n] points answers [n * (n - 1) / 2]
    distances. *)
Theorem partial_digest_check_list fragment_lengths width sol :
  Forall (λ d, 0 < d) fragment_lengths →
  py_max fragment_lengths = Some width →
  occ width fragment_lengths = 1 →
  partial_digest fragment_lengths = Returned (Some sol) →
  all_pairwise_distances sol = sorted fragment_lengths ∧
  (length sol * (length sol - 1) = 2 * length fragment_lengths)%nat.
Proof.
  intros Hpos Hmax Hocc Hsol.
  pose proof (partial_digest_sound_single_width _ _ _ Hpos Hmax Hocc Hsol) as Hp.
  split.
  - apply sorted_lists_equal; [apply sorted_Sorted..|]. by rewrite sorted_Permutation.
  - rewrite <- (Permutation_length Hp).
    rewrite (Permutation_length (all_pairwise_distances_Permutation sol)).
    symmetry. apply pairwise_loop_length.
Qed.

Lemma partial_digest_check_list_witness :
  all_pairwise_distances [0; 2; 4; 7] = sorted [7; 2; 5; 4; 3; 2] ∧
  (length [0; 2; 4; 7] * (length [0; 2; 4; 7] - 1)
   = 2 * length [7; 2; 5; 4; 3; 2])%nat.
Proof.
  apply (partial_digest_check_list [7; 2; 5; 4; 3; 2] 7 [0; 2; 4; 7]).
  - repeat constructor.
  - reflexivity.
  - reflexivity.
  - vm_compute. reflexivity.
Defined.

Lemma partial_digest_returns fragment_lengths :
  ∃ r, partial_digest fragment_lengths = Returned r.
Proof.
  destruct fragment_lengths as [|d rest]; [by eexists|].
  destruct (py_max (d :: rest)) as [w|] eqn:Hmax; [|done].
  rewrite (partial_digest_unfold _ _ Hmax). apply find_solution_returns.
Qed.

(** X14.  When the maximum of a list of positive distances occurs once and
    the length of the list is not of the form [n * (n - 1) / 2],
    [partial_digest] returns [None]. *)
Theorem partial_digest_size_mismatch fragment_lengths width :
  Forall (λ d, 0 < d) fragment_lengths →
  py_max fragment_lengths = Some width →
  occ width fragment_lengths = 1 →
  (∀ n, (n * (n - 1))%nat ≠ (2 * length fragment_lengths)%nat) →
  partial_digest fragment_lengths = Returned None.
Proof.
  intros Hpos Hmax Hocc Hsize.
  destruct (partial_digest_returns fragment_lengths) as [[sol|] Hr]; [|done].
  pose proof (partial_digest_sound_single_width _ _ _ Hpos Hmax Hocc Hr) as Hp.
  exfalso. apply (Hsize (length sol)).
  rewrite <- (Permutation_length Hp).
  rewrite (Permutation_length (all_pairwise_distances_Permutation sol)).
  symmetry. apply pairwise_loop_length.
Qed.

Lemma partial_digest_size_mismatch_witness :
  partial_digest [3; 5] = Returned None.
Proof.
  apply (partial_digest_size_mismatch [3; 5] 5).
  - repeat constructor.
  - reflexivity.
  - reflexivity.
  - intros n. simpl. destruct n as [|[|[|[|n]]]]; simpl; lia.
Defined.

(** ** The order of the input *)

Lemma py_max_Permutation (l l' : list Z) : l ≡ₚ l' → py_max l = py_max l'.
Proof.
  intros Hp. destruct (py_max l) as [w|] eqn:Hmax.
  - symmetry. apply py_max_spec. apply py_max_spec in Hmax as [Hin Hle].
    split; [by rewrite <- Hp|]. intros x Hx. apply Hle. by rewrite Hp.
  - apply py_max_None in Hmax as ->. apply Permutation_nil in Hp as ->. done.
Qed.

Lemma find_solution_Permutation width distances distances' points :
  distances ≡ₚ distances' →
  find_solution width distances points = find_solution width distances' points.
Proof.
  intros Hp. unfold find_solution, initial_stack, turns_bound.
  by rewrite (create_counts_Permutation _ _ Hp), (Permutation_length Hp).
Qed.

Lemma partial_digest_Permutation fl fl' :
  fl ≡ₚ fl' → partial_digest fl = partial_digest fl'.
Proof.
  intros Hp. destruct (py_max fl) as [w|] eqn:Hmax.
  - rewrite (partial_digest_unfold _ _ Hmax).
    rewrite (py_max_Permutation _ _ Hp) in Hmax.
    rewrite (partial_digest_unfold _ _ Hmax).
    apply find_solution_Permutation. by rewrite Hp.
  - apply py_max_None in Hmax as ->. apply Permutation_nil in Hp as ->. done.
Qed.

(** X15.  [partial_digest] gives the same result for the same distances in
    any order. *)
Theorem partial_digest_order fragment_lengths fragment_lengths' :
  fragment_lengths ≡ₚ fragment_lengths' →
  partial_digest fragment_lengths = partial_digest fragment_lengths'.
Proof. apply partial_digest_Permutation. Qed.

Lemma partial_digest_order_witness :
  partial_digest [2; 4; 2] = partial_digest [4; 2; 2].
Proof. apply partial_digest_order. apply perm_swap. Defined.

(** ** Any set of distinct points *)

Lemma list_min_exists (l : list Z) :
  l ≠ [] → ∃ a, a ∈ l ∧ ∀ p, p ∈ l → a ≤ p.
Proof.
  induction l as [|x l IH]; [done|]. intros _.
  destruct l as [|y l].
  - exists x. split; [left|]. by intros p ->%list_elem_of_singleton.
  - destruct IH as (a & Ha & Hmin); [done|].
    destruct (decide (x ≤ a)).
    + exists x. split; [left|]. intros p [->|Hp]%elem_of_cons; [lia|].
      specialize (Hmin p Hp). lia.
    + exists a. split; [by right|]. intros p [->|Hp]%elem_of_cons; [lia|auto].
Qed.

Lemma distinct_points_roundtrip (points fl : list Z) :
  NoDup points → (2 ≤ length points)%nat →
  fl ≡ₚ all_pairwise_distances points →
  ∃ sol,
    partial_digest fl = Returned (Some sol) ∧ all_pairwise_distances sol ≡ₚ fl.
Proof.
  intros Hnd Hlen Hfl.
  destruct (list_min_exists points) as (a & Ha & Hmin).
  { intros ->. simpl in Hlen. lia. }
  set (shifted := map (λ p, p + - a) points).
  assert (Hnd' : NoDup shifted).
  { assert (Inj (=) (=) (λ p : Z, p + - a)) by (intros x y ?; lia).
    by apply (NoDup_fmap_2 _). }
  assert (Hnn : Forall (λ p, 0 ≤ p) shifted).
  { apply Forall_fmap, Forall_forall. intros p Hp. specialize (Hmin p Hp). simpl. lia. }
  assert (Hlen' : (2 ≤ length shifted)%nat) by (unfold shifted; by rewrite length_map).
  assert (H0 : 0 ∈ shifted).
  { apply list_elem_of_fmap. exists a. split; [lia | done]. }
  destruct (point_set_ends shifted Hnd' Hnn Hlen' H0) as (w & others & Hperm & Hrange).
  destruct (digest_roundtrip w others shifted Hperm Hnd' Hrange) as (sol & Hsol & Hp).
  assert (Heq : all_pairwise_distances shifted = all_pairwise_distances points).
  { apply all_pairwise_distances_perm_eq. unfold shifted.
    rewrite pairwise_loop_isometry; [done|]. intros x y. f_equal. lia. }
  rewrite Heq in Hsol, Hp. exists sol.
  by rewrite (partial_digest_Permutation _ _ Hfl), Hfl.
Qed.

(** X16.  Round trip for any point set: given the pairwise distances, in any
    order, of at least two distinct integer positions, wherever they lie,
    [partial_digest] returns a solution, and the pairwise distances of the
    solution are the given ones. *)
Theorem partial_digest_reconstructs (points fragment_lengths : list Z) :
  NoDup points → (2 ≤ length points)%nat →
  fragment_lengths ≡ₚ all_pairwise_distances points →
  ∃ sol,
    partial_digest fragment_lengths = Returned (Some sol) ∧
    all_pairwise_distances sol ≡ₚ fragment_lengths.
Proof. apply distinct_points_roundtrip. Qed.

Lemma partial_digest_reconstructs_witness :
  ∃ sol,
    partial_digest [3; 8; 5] = Returned (Some sol) ∧
    all_pairwise_distances sol ≡ₚ [3; 8; 5].
Proof.
  apply (partial_digest_reconstructs [-1; 7; 2] [3; 8; 5]).
  - apply (bool_decide_unpack _). vm_compute. reflexivity.
  - simpl. lia.
  - vm_compute. apply perm_skip, perm_swap.
Defined.

(** X17.  The search is exhaustive: when [partial_digest] returns [None],
    no list of at least two distinct positions has the input as its pairwise
    distances. *)
Theorem partial_digest_None_unsatisfiable fragment_lengths points :
  partial_digest fragment_lengths = Returned None →
  NoDup points → (2 ≤ length points)%nat →
  ¬ all_pairwise_distances points ≡ₚ fragment_lengths.
Proof.
  intros Hnone Hnd Hlen Hp.
  destruct (distinct_points_roundtrip points fragment_lengths Hnd Hlen) as (sol & Hsol & _);
    [done | congruence].
Qed.

Lemma partial_digest_None_unsatisfiable_witness :
  ¬ all_pairwise_distances [0; 1; 3] ≡ₚ [1; 1; 3].
Proof.
  apply (partial_digest_None_unsatisfiable [1; 1; 3] [0; 1; 3]).
  - vm_compute. reflexivity.
  - apply (bool_decide_unpack _). vm_compute. reflexivity.
  - simpl. lia.
Defined.

(** ** The shape of a solution *)

Lemma reachable_Forall_turn (Inv : entry → Prop) width start :
  Forall Inv start →
  (∀ counts points pushed,
      Inv (counts, points) →
      expand width counts points = inr pushed →
      Forall Inv pushed) →
  ∀ stack, reachable width start stack → Forall Inv stack.
Proof.
  intros Hstart Hpres stack Hreach. induction Hreach as [|stack stack' _ IH Hstep]; [done|].
  apply step_Continue in Hstep as (counts & points & rest & pushed & -> & _ & Hexp & ->).
  apply Forall_cons in IH as [Hhd Hrest]. apply Forall_app. eauto.
Qed.

Lemma process_candidate_keys c counts points pushed :
  process_candidate c counts points = inr pushed →
  Forall (λ e : entry,
            (∀ k, is_Some (e.1 !! k) → is_Some (counts !! k)) ∧
            e.2 = points ++ [c]) pushed.
Proof.
  unfold process_candidate.
  destruct (can_remove_distances _ _); [|intros [= <-]; constructor].
  destruct (decrement_all _ _) as [counts'|] eqn:Hdec; [|done].
  case_decide; intros [= <-]; repeat constructor. simpl.
  intros k [v [Hv _]%drop_zero_lookup_Some].
  rewrite (decrement_all_lookup _ _ _ Hdec) in Hv.
  by destruct (counts !! k).
Qed.

Lemma reachable_points_within width distances stack :
  0 ≤ width →
  (∀ d, d ∈ distances → 0 < d < width) →
  reachable width (initial_stack distances [0; width]) stack →
  Forall (λ e : entry,
            (∀ k, is_Some (e.1 !! k) → k ∈ distances) ∧
            (∀ p, p ∈ e.2 → 0 ≤ p ≤ width)) stack.
Proof.
  intros Hw Hds. apply reachable_Forall_turn.
  - constructor; [|constructor]. cbn [fst snd]. split.
    + intros k [v Hv]. rewrite create_counts_lookup in Hv. by case_decide.
    + intros p [->|[->|[]%elem_of_nil]%elem_of_cons]%elem_of_cons; lia.
  - intros counts points pushed [Hkeys Hpts] Hexp. simpl in *.
    apply expand_pushed in Hexp as (m & p1 & p2 & Hmax & H1 & H2 & ->).
    apply max_key_spec in Hmax as [Hm _]. apply Hkeys, Hds in Hm.
    apply Forall_app. split.
    + eapply Forall_impl; [by apply (process_candidate_keys _ _ _ _ H2)|].
      intros [nc np] [Hk ->]. simpl in *. split; [auto|].
      intros q [Hq| ->%list_elem_of_singleton]%elem_of_app; [auto | lia].
    + eapply Forall_impl; [by apply (process_candidate_keys _ _ _ _ H1)|].
      intros [nc np] [Hk ->]. simpl in *. split; [auto|].
      intros q [Hq| ->%list_elem_of_singleton]%elem_of_app; [auto | lia].
Qed.

Lemma sorted_strongly (l : list Z) : Sorted Z.le l → StronglySorted Z.le l.
Proof. apply (@Sorted_StronglySorted Z Z.le Z.le_trans). Qed.

Lemma sorted_head (l : list Z) x :
  Sorted Z.le l → x ∈ l → (∀ y, y ∈ l → x ≤ y) → head l = Some x.
Proof.
  intros Hs%sorted_strongly Hx Hmin.
  destruct l as [|a l]; [by apply elem_of_nil in Hx|]. simpl. f_equal.
  apply StronglySorted_inv in Hs as [_ Hall]. rewrite Forall_forall in Hall.
  apply Z.le_antisymm; [|apply Hmin; left].
  apply elem_of_cons in Hx as [->|Hx]; [lia | by apply Hall].
Qed.

Lemma sorted_last (l : list Z) x :
  Sorted Z.le l → x ∈ l → (∀ y, y ∈ l → y ≤ x) → last l = Some x.
Proof.
  intros Hs%sorted_strongly.
  induction Hs as [|a l Hs IH Hall]; intros Hx Hmax; [by apply elem_of_nil in Hx|].
  destruct l as [|b l].
  - apply list_elem_of_singleton in Hx as ->. done.
  - change (last (a :: b :: l)) with (last (b :: l)). apply IH.
    + apply elem_of_cons in Hx as [->|Hx]; [|done].
      apply Forall_cons in Hall as [Hab _].
      assert (b ≤ a) by (apply Hmax; right; left).
      replace a with b by lia. left.
    + intros y Hy. apply Hmax. by right.
Qed.

Lemma sorted_strict (l : list Z) : Sorted Z.le l → NoDup l → Sorted Z.lt l.
Proof.
  intros Hs%sorted_strongly Hnd.
  apply StronglySorted_Sorted.
  induction Hs as [|a l Hs IH Hall]; constructor.
  - apply IH. by apply NoDup_cons in Hnd as [_ ?].
  - apply NoDup_cons in Hnd as [Ha _]. rewrite Forall_forall in Hall |- *.
    intros y Hy. specialize (Hall y Hy). assert (a ≠ y) by (intros ->; done). lia.
Qed.

(** X18.  For a list of positive distances with maximum [width], a solution
    returned by [partial_digest] is a strictly increasing list that starts at
    [0] and ends at [width]; it has at least two points. *)
Theorem partial_digest_solution_shape fragment_lengths width sol :
  Forall (λ d, 0 < d) fragment_lengths →
  py_max fragment_lengths = Some width →
  partial_digest fragment_lengths = Returned (Some sol) →
  Sorted Z.lt sol ∧ head sol = Some 0 ∧ last sol = Some width ∧
  (2 ≤ length sol)%nat.
Proof.
  intros Hpos Hmax. rewrite (partial_digest_unfold _ _ Hmax). intros Hsol.
  pose proof Hmax as [Hin Hle]%py_max_spec. rewrite Forall_forall in Hpos.
  assert (Hw : 0 < width) by by apply Hpos.
  unfold find_solution in Hsol.
  eapply run_reachable_Some in Hsol
    as (counts & pts & rest & Hreach & _ & ->); [|constructor].
  pose proof (reachable_points_ends _ _ 0 width _ ltac:(lia) Hreach)
    as [(H0 & H1 & Hnd) _]%Forall_cons.
  apply reachable_points_within in Hreach as [[_ Hrange] _]%Forall_cons; [|lia|].
  2:{ intros d [Hne Hd]%list_elem_of_filter.
      specialize (Hpos d Hd). specialize (Hle d Hd). lia. }
  simpl in *.
  assert (Hhead : head (sorted pts) = Some 0).
  { apply sorted_head; [apply sorted_Sorted | by rewrite sorted_Permutation|].
    intros y Hy. rewrite sorted_Permutation in Hy. by apply Hrange. }
  assert (Hlast : last (sorted pts) = Some width).
  { apply sorted_last; [apply sorted_Sorted | by rewrite sorted_Permutation|].
    intros y Hy. rewrite sorted_Permutation in Hy. by apply Hrange. }
  split_and!; [|done..|].
  - apply sorted_strict; [apply sorted_Sorted | by rewrite sorted_Permutation].
  - destruct (sorted pts) as [|a [|b l]]; simpl in *; [done| |lia].
    simplify_eq. lia.
Qed.

Lemma partial_digest_solution_shape_witness :
  Sorted Z.lt [0; 2; 4; 7] ∧ head [0; 2; 4; 7] = Some 0 ∧
  last [0; 2; 4; 7] = Some 7 ∧ (2 ≤ length [0; 2; 4; 7])%nat.
Proof.
  apply (partial_digest_solution_shape [7; 2; 5; 4; 3; 2] 7 [0; 2; 4; 7]).
  - repeat constructor.
  - reflexivity.
  - vm_compute. reflexivity.
Defined.

(** ** More on the input parser *)

Lemma lstrip_head c (s : list ascii) : is_space c = false → lstrip (c :: s) = c :: s.
Proof. intros Hc. simpl. by rewrite Hc. Qed.

Lemma rstrip_last c (s : list ascii) : is_space c = false → rstrip (s ++ [c]) = s ++ [c].
Proof.
  intros Hc. unfold rstrip. rewrite rev_app_distr. simpl. rewrite Hc.
  change (c :: rev s) with (rev [c] ++ rev s). by rewrite <- rev_app_distr, rev_involutive.
Qed.

Lemma strip_enclosed a b (body : list ascii) :
  is_space a = false → is_space b = false →
  strip (a :: body ++ [b]) = a :: body ++ [b].
Proof.
  intros Ha Hb. unfold strip. rewrite (lstrip_head _ _ Ha).
  by rewrite app_comm_cons, (rstrip_last _ _ Hb).
Qed.

Lemma slice_inner_enclosed a b (body : list ascii) :
  slice_inner (a :: body ++ [b]) = body.
Proof.
  unfold slice_inner. simpl. rewrite drop_0, length_app. simpl.
  replace (length body + 1 - 0 - 1)%nat with (length body) by lia.
  by rewrite take_app_length.
Qed.

(** X19.  An input whose stripped form has at most two characters, the
    empty string and a lone pair of brackets among them, is read as the
    empty list, whatever the characters are. *)
Theorem extract_short_input input_str :
  (length (strip (list_ascii_of_string input_str)) ≤ 2)%nat →
  extract_array_from_input input_str = Some [].
Proof.
  intros Hlen. unfold extract_array_from_input, slice_inner.
  replace (length (strip (list_ascii_of_string input_str)) - 1 - 1)%nat with 0%nat by lia.
  by rewrite take_0.
Qed.

Lemma extract_short_input_witness : extract_array_from_input " x" = Some [].
Proof. apply extract_short_input. vm_compute. lia. Defined.

(** X20.  The two characters around the list are not looked at: between
    any two characters that are not blank, the result is the one the same
    text gives between brackets. *)
Theorem extract_outer_characters a b (body : list ascii) :
  is_space a = false → is_space b = false →
  extract_array_from_input (string_of_list_ascii (a :: body ++ [b]))
  = extract_array_from_input (string_of_list_ascii ("["%char :: body ++ ["]"%char])).
Proof.
  intros Ha Hb. unfold extract_array_from_input.
  rewrite !list_ascii_of_string_of_list_ascii.
  rewrite (strip_enclosed a b body Ha Hb), (strip_enclosed "[" "]" body) by done.
  by rewrite !slice_inner_enclosed.
Qed.

Lemma extract_outer_characters_witness :
  extract_array_from_input (string_of_list_ascii ("("%char :: ["1"; ","; "2"]%char ++ [")"%char]))
  = extract_array_from_input (string_of_list_ascii ("["%char :: ["1"; ","; "2"]%char ++ ["]"%char])).
Proof. apply extract_outer_characters; reflexivity. Defined.

(** X21.  On any text and under any digit limit: when the text between
    the outer characters is not empty, the parser succeeds exactly when every
    comma-separated token, stripped, is an integer literal within the digit
    limit, and it then returns one integer per token. *)
Theorem extract_succeeds_iff {A : Type} `{EqDecision A}
    (cs : charset A) (max_str_digits : nat) (input_str : list A) :
  let content := slice_of (strip_of cs input_str) in
  content ≠ [] →
  (is_Some (extract_array_from_text cs max_str_digits input_str) ↔
   Forall (λ token, readable_of cs max_str_digits (strip_of cs token) = true)
     (split_of (comma cs) content)) ∧
  (∀ xs, extract_array_from_text cs max_str_digits input_str = Some xs →
         length xs = length (split_of (comma cs) content)).
Proof.
  intros content Hne. unfold extract_array_from_text. fold content.
  destruct content as [|c content'] eqn:Hc; [done|]. rewrite <- Hc. split.
  - rewrite mapM_is_Some. apply Forall_iff. intros token. simpl.
    apply py_int_of_readable.
  - intros xs Hxs%mapM_Some. symmetry. by eapply Forall2_length.
Qed.

Lemma extract_succeeds_iff_witness :
  let input := list_ascii_of_string "[4, -2]" in
  (is_Some (extract_array_from_text latin1 4300 input) ↔
   Forall (λ token, readable_of latin1 4300 (strip_of latin1 token) = true)
     (split_of ","%char (slice_of (strip_of latin1 input)))) ∧
  (∀ xs, extract_array_from_text latin1 4300 input = Some xs →
         length xs = length (split_of ","%char (slice_of (strip_of latin1 input)))).
Proof.
  intros input. apply (extract_succeeds_iff latin1 4300 input).
  vm_compute. discriminate.
Defined.

Lemma lstrip_blank (ws s : list ascii) :
  Forall (λ c, is_space c = true) ws → lstrip (ws ++ s) = lstrip s.
Proof. induction 1 as [|c ws Hc _ IH]; simpl; [done|]. by rewrite Hc. Qed.

Lemma rstrip_blank (ws s : list ascii) :
  Forall (λ c, is_space c = true) ws → rstrip (s ++ ws) = rstrip s.
Proof.
  intros Hws. unfold rstrip. rewrite rev_app_distr, lstrip_blank; [done|].
  by apply Forall_rev.
Qed.

Lemma rstrip_lstrip_blank (ws s : list ascii) :
  Forall (λ c, is_space c = true) ws → rstrip (lstrip (s ++ ws)) = rstrip (lstrip s).
Proof.
  intros Hws. induction s as [|c s IH].
  - simpl. rewrite <- (app_nil_r ws), lstrip_blank by done. done.
  - simpl. destruct (is_space c); [done|].
    change (c :: s ++ ws) with ((c :: s) ++ ws). by apply rstrip_blank.
Qed.

(** X22.  Blank characters before and after the input do not change what
    the parser returns. *)
Theorem extract_surrounding_blanks (before after input : list ascii) :
  Forall (λ c, is_space c = true) before →
  Forall (λ c, is_space c = true) after →
  extract_array_from_input (string_of_list_ascii (before ++ input ++ after))
  = extract_array_from_input (string_of_list_ascii input).
Proof.
  intros Hb Ha. unfold extract_array_from_input.
  rewrite !list_ascii_of_string_of_list_ascii. unfold strip.
  by rewrite lstrip_blank, rstrip_lstrip_blank.
Qed.

Lemma extract_surrounding_blanks_witness :
  extract_array_from_input
    (string_of_list_ascii ([" "; "009"]%char ++ ["["; "7"; "]"]%char ++ ["010"]%char))
  = extract_array_from_input (string_of_list_ascii ["["; "7"; "]"]%char).
Proof. apply extract_surrounding_blanks; by repeat constructor. Defined.

(** ** Printing and reading back *)

Lemma digit_char_spec d :
  0 ≤ d < 10 → is_digit (digit_char d) = true ∧ digit_value (digit_char d) = d.
Proof.
  intros Hd.
  assert (d = 0 ∨ d = 1 ∨ d = 2 ∨ d = 3 ∨ d = 4 ∨ d = 5 ∨ d = 6 ∨ d = 7 ∨ d = 8 ∨ d = 9)
    as Hcases by lia.
  repeat (destruct Hcases as [->|Hcases]; [by vm_compute|]). subst. by vm_compute.
Qed.

Lemma is_digit_plain c :
  is_digit c = true →
  is_space c = false ∧ c ≠ "_"%char ∧ c ≠ ","%char ∧ c ≠ "+"%char ∧ c ≠ "-"%char.
Proof. destruct c as [[] [] [] [] [] [] [] []]; by vm_compute. Qed.

Lemma digits_of_spec fuel n :
  0 ≤ n → Z.log2 n < Z.of_nat fuel →
  Forall (λ c, is_digit c = true) (digits_of fuel n) ∧
  digits_of fuel n ≠ [] ∧
  foldl (λ a c, 10 * a + digit_value c) 0 (digits_of fuel n) = n.
Proof.
  revert n. induction fuel as [|fuel IH]; intros n Hn Hlog.
  { pose proof (Z.log2_nonneg n). lia. }
  cbn [digits_of].
  destruct (digit_char_spec (n mod 10)) as [Hd Hv]; [by apply Z.mod_pos_bound|].
  destruct (Z.ltb_spec n 10) as [Hlt|Hge].
  - rewrite Z.mod_small in Hd, Hv |- * by lia. simpl. rewrite Hv.
    split; [apply Forall_singleton, Hd|]. done.
  - assert (0 < n / 10) by (apply Z.div_str_pos; lia).
    assert (Z.log2 (n / 10) < Z.of_nat fuel).
    { pose proof (Z.log2_double (n / 10) ltac:(lia)).
      pose proof (Z.log2_le_mono (2 * (n / 10)) n).
      pose proof (Z.mul_div_le n 10). lia. }
    destruct (IH (n / 10)) as (Hall & Hne & Hval); [lia | done|].
    split; [|split].
    + apply Forall_app. split; [done | apply Forall_singleton, Hd].
    + by destruct (digits_of fuel (n / 10)).
    + rewrite foldl_app. simpl. rewrite Hval, Hv.
      pose proof (Z.div_mod n 10). lia.
Qed.

Lemma parse_digits_plain (s : list ascii) acc after_underscore :
  Forall (λ c, is_digit c = true) s → s ≠ [] →
  parse_digits acc after_underscore s
  = Some (foldl (λ a c, 10 * a + digit_value c) acc s).
Proof.
  intros Hall. revert acc after_underscore.
  induction Hall as [|c s Hc Hall IH]; intros acc au Hne; [done|].
  simpl. destruct (is_digit_plain c Hc) as (_ & Hus & _).
  rewrite decide_False, Hc by done.
  destruct s as [|c' s]; [done|]. by apply IH.
Qed.

Lemma strip_no_blank (s : list ascii) :
  Forall (λ c, is_space c = false) s → strip s = s.
Proof.
  intros Hall. assert (Hl : ∀ l, Forall (λ c, is_space c = false) l → lstrip l = l).
  { intros l [|c l' Hc _]; [done|]. by apply lstrip_head. }
  unfold strip, rstrip. rewrite (Hl s Hall), Hl; [apply rev_involutive|].
  by apply Forall_rev.
Qed.

Lemma py_repr_int_chars z :
  Forall (λ c, is_space c = false ∧ c ≠ ","%char) (py_repr_int z).
Proof.
  assert (Hd : ∀ n, 0 ≤ n →
    Forall (λ c, is_space c = false ∧ c ≠ ","%char)
      (digits_of (S (Z.to_nat (Z.log2 n))) n)).
  { intros n Hn. destruct (digits_of_spec (S (Z.to_nat (Z.log2 n))) n) as (Hall & _).
    - done.
    - pose proof (Z.log2_nonneg n). lia.
    - eapply Forall_impl; [done|]. intros c Hc. simpl in Hc.
      destruct (is_digit_plain c Hc) as (? & _ & ? & _). done. }
  unfold py_repr_int. destruct (Z.ltb_spec z 0).
  - constructor; [done|]. apply Hd. lia.
  - by apply Hd.
Qed.

Lemma digits_nonempty z : ∃ c l, py_repr_int z = c :: l.
Proof.
  unfold py_repr_int. destruct (Z.ltb_spec z 0); [by eexists _, _|].
  destruct (digits_of_spec (S (Z.to_nat (Z.log2 z))) z) as (_ & Hne & _).
  { lia. } { pose proof (Z.log2_nonneg z). lia. }
  destruct (digits_of _ z); [done | by eexists _, _].
Qed.

Lemma py_int_unsigned (s : list ascii) :
  Forall (λ c, is_digit c = true) s → s ≠ [] →
  py_int s = Some (foldl (λ a c, 10 * a + digit_value c) 0 s).
Proof.
  intros Hall Hne. unfold py_int. rewrite strip_no_blank.
  2:{ eapply Forall_impl; [done|]. intros c Hc. simpl in Hc.
      by destruct (is_digit_plain c Hc). }
  rewrite <- (parse_digits_plain s 0 true) by done.
  destruct s as [|c s]; [done|]. apply Forall_cons in Hall as [Hc _].
  destruct (is_digit_plain c Hc) as (_ & _ & _ & Hplus & Hminus).
  destruct c as [[] [] [] [] [] [] [] []]; done.
Qed.

Lemma py_int_repr z : py_int (py_repr_int z) = Some z.
Proof.
  unfold py_repr_int. destruct (Z.ltb_spec z 0) as [Hneg|Hnn].
  - destruct (digits_of_spec (S (Z.to_nat (Z.log2 (- z)))) (- z)) as (Hall & Hne & Hval).
    { lia. } { pose proof (Z.log2_nonneg (- z)). lia. }
    unfold py_int. rewrite strip_no_blank.
    + rewrite parse_digits_plain by done. rewrite Hval. simpl. f_equal. lia.
    + constructor; [done|]. eapply Forall_impl; [done|]. intros c Hc. simpl in Hc.
      by destruct (is_digit_plain c Hc).
  - destruct (digits_of_spec (S (Z.to_nat (Z.log2 z))) z) as (Hall & Hne & Hval).
    { lia. } { pose proof (Z.log2_nonneg z). lia. }
    rewrite py_int_unsigned by done. by rewrite Hval.
Qed.

Lemma split_on_absent sep (s : list ascii) : sep ∉ s → split_on sep s = [s].
Proof.
  induction s as [|c s IH]; [done|]. intros Hnin. simpl.
  rewrite decide_False by (intros ->; apply Hnin; left).
  rewrite IH; [done|]. intros Hin. apply Hnin. by right.
Qed.

Lemma split_on_first sep (s rest : list ascii) :
  sep ∉ s → split_on sep (s ++ sep :: rest) = s :: split_on sep rest.
Proof.
  induction s as [|c s IH]; intros Hnin; simpl.
  - by rewrite decide_True.
  - rewrite decide_False by (intros ->; apply Hnin; left).
    rewrite IH; [done|]. intros Hin. apply Hnin. by right.
Qed.





(** The parser of the characters below 256, without a digit limit, is the
    parser on any text at the character set [latin1]. *)
Lemma strip_latin1 s : strip_of latin1 s = strip s.
Proof. reflexivity. Qed.

Lemma split_latin1 sep s : split_of sep s = split_on sep s.
Proof. reflexivity. Qed.

Lemma parse_latin1 s acc after_underscore :
  parse_digits_of latin1 acc after_underscore s = parse_digits acc after_underscore s.
Proof.
  revert acc after_underscore. induction s as [|c s IH]; intros acc au; simpl; [done|].
  case_decide; [by destruct au|]. unfold char_digit. simpl.
  destruct (is_digit c) eqn:Hd.
  - destruct (is_digit_plain c Hd) as [-> _]. apply IH.
  - by destruct (is_space c).
Qed.

Lemma over_limit_none digits : over_limit 0 digits = false.
Proof. unfold over_limit. by destruct (640 <? digits)%nat. Qed.

Lemma py_int_latin1 s : py_int_of latin1 0 s = py_int s.
Proof.
  unfold py_int_of, unsigned_of, negative_of, py_int.
  rewrite over_limit_none. change (strip_of latin1 s) with (strip s).
  destruct (strip s) as [|c u]; [done|]. simpl.
  destruct (decide (c = "+"%char)) as [->|Hplus].
  { rewrite parse_latin1. by destruct (parse_digits 0 true u). }
  destruct (decide (c = "-"%char)) as [->|Hminus].
  { rewrite parse_latin1. by destruct (parse_digits 0 true u). }
  rewrite parse_latin1.
  transitivity (parse_digits 0 true (c :: u)).
  - by destruct (parse_digits 0 true (c :: u)).
  - destruct c as [[] [] [] [] [] [] [] []]; done.
Qed.

Lemma py_int_of_limit {A : Type} `{EqDecision A} (cs : charset A) max_str_digits s :
  py_int_of cs max_str_digits s
  = match py_int_of cs 0 s with
    | Some v => if over_limit max_str_digits (digit_count cs s) then None else Some v
    | None => None
    end.
Proof.
  unfold py_int_of. rewrite over_limit_none.
  by destruct (parse_digits_of cs 0 true (unsigned_of cs s)).
Qed.

Lemma extract_latin1 input_str :
  extract_array_from_input input_str
  = extract_array_from_text latin1 0 (list_ascii_of_string input_str).
Proof.
  unfold extract_array_from_input, extract_array_from_text.
  change (slice_of (strip_of latin1 ?s)) with (slice_inner (strip s)).
  destruct (slice_inner (strip (list_ascii_of_string input_str))); [done|].
  change (split_of ?sep ?s) with (split_on sep s). apply mapM_ext. intros x.
  by rewrite py_int_latin1.
Qed.

Lemma py_repr_int_digits z :
  Forall (λ c, is_digit c = true) (if z <? 0 then tail (py_repr_int z) else py_repr_int z).
Proof.
  unfold py_repr_int. destruct (Z.ltb_spec z 0); simpl.
  - destruct (digits_of_spec (S (Z.to_nat (Z.log2 (- z)))) (- z)) as (Hall & _); [lia| |done].
    pose proof (Z.log2_nonneg (- z)). lia.
  - destruct (digits_of_spec (S (Z.to_nat (Z.log2 z))) z) as (Hall & _); [lia| |done].
    pose proof (Z.log2_nonneg z). lia.
Qed.

Lemma digit_count_repr z :
  digit_count latin1 (py_repr_int z)
  = length (if z <? 0 then tail (py_repr_int z) else py_repr_int z).
Proof.
  pose proof (py_repr_int_digits z) as Hall.
  unfold digit_count, unsigned_of. change (strip_of latin1 ?s) with (strip s).
  rewrite strip_no_blank.
  2:{ eapply Forall_impl; [apply py_repr_int_chars|]. by intros c [? _]. }
  assert (Hkeep : ∀ l, Forall (λ c, is_digit c = true) l →
                       filter (λ c, c ≠ underscore latin1) l = l).
  { intros l Hl. induction Hl as [|c l Hc _ IH]; [done|].
    rewrite filter_cons, IH. destruct (is_digit_plain c Hc) as (_ & ? & _).
    by rewrite decide_True. }
  unfold py_repr_int in *. destruct (Z.ltb_spec z 0).
  - simpl in *. by rewrite Hkeep.
  - destruct (digits_of _ z) as [|c l] eqn:Hd; [done|]. simpl.
    apply Forall_cons in Hall as Hc. destruct Hc as [Hc _].
    destruct (is_digit_plain c Hc) as (_ & _ & _ & ? & ?).
    rewrite !decide_False by done. by rewrite Hkeep.
Qed.

Lemma py_int_of_str max_str_digits z text :
  py_str_int max_str_digits z = Some text →
  text = py_repr_int z ∧ py_int_of latin1 max_str_digits text = Some z.
Proof.
  unfold py_str_int. intros Hstr.
  destruct (_ && _ && _)%bool eqn:Hlim in Hstr; [done|]. injection Hstr as <-.
  split; [done|].
  rewrite py_int_of_limit, py_int_latin1, py_int_repr, digit_count_repr.
  set (digits := length (if z <? 0 then tail (py_repr_int z) else py_repr_int z)) in *.
  assert (Hle : (digits ≤ length (py_repr_int z))%nat).
  { unfold digits. destruct (z <? 0); [|done]. destruct (py_repr_int z); simpl; lia. }
  unfold over_limit.
  destruct (Nat.ltb_spec 640 digits); [|done].
  destruct (Nat.ltb_spec 640 (length (py_repr_int z))); [|lia].
  simpl in *. by rewrite Hlim.
Qed.

Lemma tokens_of_join (xs : list Z) :
  xs ≠ [] →
  Forall2 (λ token x, strip token = py_repr_int x)
    (split_on ","%char (join_comma (map py_repr_int xs))) xs.
Proof.
  assert (Hstrip : ∀ z, strip (py_repr_int z) = py_repr_int z).
  { intros z. apply strip_no_blank.
    eapply Forall_impl; [apply py_repr_int_chars|]. by intros c [? _]. }
  assert (Hcomma : ∀ z, ","%char ∉ py_repr_int z).
  { intros z Hin. pose proof (py_repr_int_chars z) as Hall.
    rewrite Forall_forall in Hall. by destruct (Hall _ Hin). }
  induction xs as [|z xs IH]; [done|]. intros _.
  destruct xs as [|z' xs].
  - simpl. rewrite split_on_absent by done. by repeat constructor.
  - change (join_comma (map py_repr_int (z :: z' :: xs)))
      with (py_repr_int z ++ ","%char :: " "%char :: join_comma (map py_repr_int (z' :: xs))).
    rewrite split_on_first by done. constructor; [done|].
    specialize (IH ltac:(done)). cbn [split_on]. rewrite decide_False by done.
    destruct (split_on ","%char (join_comma (map py_repr_int (z' :: xs))))
      as [|piece pieces]; [by inversion IH|].
    inversion IH; subst. by constructor.
Qed.

Lemma mapM_py_str max_str_digits xs items :
  mapM (py_str_int max_str_digits) xs = Some items →
  items = map py_repr_int xs ∧
  Forall (λ x, py_int_of latin1 max_str_digits (py_repr_int x) = Some x) xs.
Proof.
  intros Hm%mapM_Some. induction Hm as [|x item xs items Hx _ IH]; [done|].
  destruct (py_int_of_str _ _ _ Hx) as [-> Hint], IH as [-> IH].
  split; [done|]. by constructor.
Qed.

Lemma read_tokens max_str_digits tokens (ys : list Z) :
  Forall2 (λ token x, strip token = py_repr_int x) tokens ys →
  Forall (λ x, py_int_of latin1 max_str_digits (py_repr_int x) = Some x) ys →
  Forall2 (λ token y, py_int_of latin1 max_str_digits (strip_of latin1 token) = Some y)
    tokens ys.
Proof.
  intros Htok. induction Htok as [|token y tokens' ys' Ht _ IH]; [constructor|].
  intros [Hy Hys]%Forall_cons. constructor; [|by apply IH].
  change (strip_of latin1 token) with (strip token). by rewrite Ht.
Qed.

Lemma extract_str_list max_str_digits xs text :
  py_str_list max_str_digits xs = Some text →
  extract_array_from_text latin1 max_str_digits text = Some xs.
Proof.
  unfold py_str_list. destruct (mapM _ xs) as [items|] eqn:Hm; [|done]. simpl.
  intros [= <-]. destruct (mapM_py_str _ _ _ Hm) as [-> Hall].
  unfold extract_array_from_text. change (strip_of latin1 ?s) with (strip s).
  rewrite strip_enclosed by done.
  change (slice_of ?s) with (slice_inner s). rewrite slice_inner_enclosed.
  destruct xs as [|z xs]; [done|].
  destruct (join_comma (map py_repr_int (z :: xs))) as [|c content] eqn:Hj.
  { exfalso. destruct (digits_nonempty z) as [c [l Hz]].
    simpl in Hj. rewrite Hz in Hj. by destruct xs. }
  rewrite <- Hj. change (split_of ?sep ?s) with (split_on sep s). apply mapM_Some.
  apply read_tokens; [|done]. by apply tokens_of_join.
Qed.

(** X23.  Reading back what is printed, under any digit limit: when [str]
    gives the text of an integer, [int] of that text is the integer, and when
    [str] gives the text of a list of integers, as [main] prints it,
    [extract_array_from_input] parses the text into the same list. *)
Theorem printed_list_read_back max_str_digits :
  (∀ z text, py_str_int max_str_digits z = Some text →
             py_int_of latin1 max_str_digits text = Some z) ∧
  (∀ xs text, py_str_list max_str_digits xs = Some text →
              extract_array_from_text latin1 max_str_digits text = Some xs).
Proof.
  split.
  - intros z text Hstr. by destruct (py_int_of_str _ _ _ Hstr).
  - apply extract_str_list.
Qed.

Lemma printed_list_read_back_witness :
  py_int_of latin1 4300 (py_repr_int (-305)) = Some (-305) ∧
  extract_array_from_text latin1 4300
    (list_ascii_of_string "[0, -12, 305]") = Some [0; -12; 305].
Proof.
  split.
  - apply (proj1 (printed_list_read_back 4300) (-305)). reflexivity.
  - apply (proj2 (printed_list_read_back 4300) [0; -12; 305]). reflexivity.
Defined.

(** ** The command line *)

Lemma solution_nonempty fragment_lengths sol :
  partial_digest fragment_lengths = Returned (Some sol) → sol ≠ [].
Proof.
  destruct (py_max fragment_lengths) as [w|] eqn:Hmax.
  - rewrite (partial_digest_unfold _ _ Hmax). intros Hsol.
    pose proof (find_solution_keeps_points _ _ _ _ Hsol) as Hin.
    intros ->. apply (elem_of_nil 0), Hin. left.
  - apply py_max_None in Hmax as ->. done.
Qed.

Lemma main_with_list prompt fragment_lengths args_input args_distances typed :
  read_fragment_lengths args_input args_distances typed = (prompt, Some fragment_lengths) →
  main args_input args_distances typed
  = match partial_digest fragment_lengths with
    | Returned (Some sol) =>
        Exits (prompt ++
               [line (String.append "Reconstructed points: " (list_text sol));
                line (String.append "Distances check: "
                        (list_text (all_pairwise_distances sol)))]) 0
    | _ => Exits (prompt ++ [line "No solution found."]) 0
    end.
Proof.
  intros Hread. unfold main. rewrite Hread.
  destruct (partial_digest_returns fragment_lengths) as [[sol|] Hr]; rewrite Hr; [|done].
  pose proof (solution_nonempty _ _ Hr). by destruct sol.
Qed.




(** X26.  From end to end: given as integer arguments the pairwise
    distances, in any order, of at least two distinct positions, [main]
    prints a reconstruction and, as its check, the given distances in
    ascending order, and exits with status [0]. *)
Theorem main_reconstructs points distances typed :
  NoDup points → (2 ≤ length points)%nat →
  distances ≡ₚ all_pairwise_distances points →
  ∃ sol,
    all_pairwise_distances sol = sorted distances ∧
    main None (Some distances) typed
    = Exits [line (String.append "Reconstructed points: " (list_text sol));
             line (String.append "Distances check: " (list_text (sorted distances)))] 0.
Proof.
  intros Hnd Hlen Hp.
  destruct (distinct_points_roundtrip points distances Hnd Hlen Hp) as (sol & Hsol & Hacc).
  assert (Heq : all_pairwise_distances sol = sorted distances).
  { apply sorted_lists_equal; [apply sorted_Sorted..|]. by rewrite sorted_Permutation. }
  exists sol. split; [done|].
  destruct distances as [|d ds]; [done|].
  rewrite (main_with_list [] (d :: ds)) by done. by rewrite Hsol, Heq.
Qed.

Lemma main_reconstructs_witness :
  ∃ sol,
    all_pairwise_distances sol = sorted [3; 8; 5] ∧
    main None (Some [3; 8; 5]) ""
    = Exits [line (String.append "Reconstructed points: " (list_text sol));
             line (String.append "Distances check: " (list_text (sorted [3; 8; 5])))] 0.
Proof.
  apply (main_reconstructs [-1; 7; 2] [3; 8; 5] "").
  - apply (bool_decide_unpack _). vm_compute. reflexivity.
  - simpl. lia.
  - vm_compute. apply perm_skip, perm_swap.
Defined.



(** ** Inputs that are turned down *)

Lemma partial_digest_solution_NoDup fragment_lengths width sol :
  py_max fragment_lengths = Some width → width ≠ 0 →
  partial_digest fragment_lengths = Returned (Some sol) → NoDup sol.
Proof.
  intros Hmax Hw. rewrite (partial_digest_unfold _ _ Hmax). intros Hsol.
  unfold find_solution in Hsol.
  eapply run_reachable_Some in Hsol
    as (counts & pts & rest & Hreach & _ & ->); [|constructor].
  apply reachable_points_ends in Hreach as [(_ & _ & Hnd) _]%Forall_cons; [|done].
  simpl in Hnd. by rewrite sorted_Permutation.
Qed.

(** X28.  A list with a positive maximum that also contains a value that is
    not positive is turned down: [partial_digest] returns [None]. *)
Theorem partial_digest_rejects_nonpositive fragment_lengths width d :
  py_max fragment_lengths = Some width → 0 < width →
  d ∈ fragment_lengths → d ≤ 0 →
  partial_digest fragment_lengths = Returned None.
Proof.
  intros Hmax Hw Hd Hneg.
  destruct (partial_digest_returns fragment_lengths) as [[sol|] Hr]; [|done].
  exfalso.
  pose proof (partial_digest_solution_NoDup _ _ _ Hmax ltac:(lia) Hr) as Hnd.
  apply pairwise_loop_positive in Hnd. rewrite Forall_forall in Hnd.
  assert (Hin : d ∈ all_pairwise_distances sol).
  { rewrite (partial_digest_accounts _ _ _ Hmax Hr). right.
    apply list_elem_of_filter. split; [lia | done]. }
  rewrite all_pairwise_distances_Permutation in Hin.
  specialize (Hnd d Hin). simpl in Hnd. lia.
Qed.

Lemma partial_digest_rejects_nonpositive_witness :
  partial_digest [0; 3; 3] = Returned None.
Proof.
  apply (partial_digest_rejects_nonpositive [0; 3; 3] 3 0).
  - reflexivity.
  - lia.
  - left.
  - lia.
Defined.

Lemma split_on_trailing sep (s : list ascii) :
  ∃ first init, split_on sep (s ++ [sep]) = first :: init ++ [[]].
Proof.
  induction s as [|c s (first & init & IH)]; simpl.
  - rewrite decide_True by done. by exists [], [].
  - rewrite IH. case_decide.
    + by exists [], (first :: init).
    + by exists (c :: first), init.
Qed.

(** X29.  A comma right before the closing character leaves an empty last
    token, which is not an integer: the parser returns [None]. *)
Theorem extract_trailing_comma a b (body : list ascii) :
  is_space a = false → is_space b = false →
  extract_array_from_input
    (string_of_list_ascii (a :: (body ++ [","%char]) ++ [b])) = None.
Proof.
  intros Ha Hb. unfold extract_array_from_input.
  rewrite list_ascii_of_string_of_list_ascii, strip_enclosed, slice_inner_enclosed by done.
  destruct (split_on_trailing ","%char body) as (first & init & Hsplit).
  destruct (body ++ [","%char]) as [|c content] eqn:Hc; [by destruct body|].
  rewrite Hsplit. apply mapM_None, Exists_exists. exists []. split; [|done].
  right. apply elem_of_app. right. left.
Qed.

Lemma extract_trailing_comma_witness :
  extract_array_from_input
    (string_of_list_ascii ("["%char :: (["1"; ","; "2"]%char ++ [","%char]) ++ ["]"%char]))
  = None.
Proof. apply extract_trailing_comma; reflexivity. Defined.
